(** * footballrankings: the data-normalisation core of [index.js]

    A shallow embedding of the pure transformations of [src/index.js]
    (name normaliser, team directory and logo resolver, win/loss
    aggregation, ratings, per-game stat averages, poll extraction)
    together with the properties the specification states about them.

    Modelling conventions.
    - A JavaScript string is a [string]: a sequence of code units below
      256 (the ISO Latin-1 range of UTF-16).  [toLowerCase] and the
      regular-expression class [\s] are written out for that range.
    - A [Map] is a [gmap string _].
    - A plain object [{}] used as a dictionary is the [gmap string _] of
      its own properties.  A read of a property it does not own sees
      [Object.prototype]: the names of [inherited_names] read as a
      built-in object, every other name as [undefined]; an assignment to
      [__proto__] makes no own property.  [Object.prototype] is taken to
      carry its standard properties when a function starts.  [teamLogos]
      can lose its prototype (an assignment of [null] to [__proto__]) and
      is a [plain] object: the own properties and the state of the link.
    - A field that holds a name is an [ostr] ([undefined], [null] or a
      string); a field that holds a score or a stat value is a [value]
      (a JSON scalar or [undefined]).
    - A finite double is a rational [Q]; comparison of doubles is the
      comparison of rationals.  Division of doubles rounds, so it is a
      parameter [fdiv] of the sections that divide. *)

From stdpp Require Import base option list gmap strings fin_maps.
From Stdlib Require Import Ascii String QArith Sorting.Sorted Permutation.

Close Scope Q_scope.
Local Open Scope string_scope.
Local Open Scope list_scope.

(** ** Strings and the name normaliser *)

(** Code unit of a character. *)
Definition code (c : ascii) : N := N_of_ascii c.

Definition in_range (lo hi : N) (c : ascii) : bool :=
  (lo <=? code c)%N && (code c <=? hi)%N.

(** [String.prototype.toLowerCase] on one code unit of the Latin-1
    range: A-Z, and the accented capitals U+00C0-U+00DE except U+00D7. *)
Definition lower_char (c : ascii) : ascii :=
  if in_range 65 90 c || in_range 192 214 c || in_range 216 222 c
  then ascii_of_N (code c + 32)
  else c.

Fixpoint toLowerCase (s : string) : string :=
  match s with
  | EmptyString => EmptyString
  | String c s' => String (lower_char c) (toLowerCase s')
  end.

(** [.replace(/&/g, 'and')] *)
Fixpoint replace_amp (s : string) : string :=
  match s with
  | EmptyString => EmptyString
  | String c s' =>
      if Ascii.eqb c "&" then "and" ++ replace_amp s'
      else String c (replace_amp s')
  end.

(** The class [a-z0-9]. *)
Definition is_key_char (c : ascii) : bool :=
  in_range 97 122 c || in_range 48 57 c.

(** [.replace(/[^a-z0-9]/g, '')] *)
Fixpoint strip_non_key (s : string) : string :=
  match s with
  | EmptyString => EmptyString
  | String c s' =>
      if is_key_char c then String c (strip_non_key s')
      else strip_non_key s'
  end.

(** [norm] on a string argument: a non-empty string is truthy, and
    [String('' || '')] is the empty string, so [String(s || '')] is [s]. *)
Definition norm (s : string) : string :=
  strip_non_key (replace_amp (toLowerCase s)).

(** Every character of [s] is in [a-z0-9]. *)
Fixpoint all_key (s : string) : bool :=
  match s with
  | EmptyString => true
  | String c s' => is_key_char c && all_key s'
  end.

(** The class [\s] below U+0100: TAB, LF, VT, FF, CR, SPACE, NBSP. *)
Definition is_space (c : ascii) : bool :=
  in_range 9 13 c || (code c =? 32)%N || (code c =? 160)%N.

(** Number of leading [\s] characters. *)
Fixpoint space_run (s : string) : nat :=
  match s with
  | String c s' => if is_space c then S (space_run s') else 0
  | EmptyString => 0
  end.

Fixpoint drop (n : nat) (s : string) : string :=
  match n, s with
  | S n', String _ s' => drop n' s'
  | _, _ => s
  end.

(** [[^)]*\)] at the head of [s]: the number of characters up to and
    including the first closing parenthesis, if there is one. *)
Fixpoint close_len (s : string) : option nat :=
  match s with
  | EmptyString => None
  | String c s' =>
      if Ascii.eqb c ")" then Some 1%nat
      else match close_len s' with
           | Some n => Some (S n)
           | None => None
           end
  end.

(** Length of the match of [/\s*\([^)]*\)\s*/] anchored at the head of
    [s].  Both [\s*] are greedy and cannot give characters back to what
    follows them, and [[^)]*] stops at the first [)]. *)
Definition paren_match_len (s : string) : option nat :=
  let n1 := space_run s in
  match drop n1 s with
  | String c s1 =>
      if Ascii.eqb c "(" then
        match close_len s1 with
        | Some n2 => Some (n1 + 1 + n2 + space_run (drop n2 s1))%nat
        | None => None
        end
      else None
  | EmptyString => None
  end.

(** [.replace(/\s*\([^)]*\)\s*/g, '')]: a left-to-right scan; [skip] is
    the number of characters of the current match still to be dropped. *)
Fixpoint strip_parens_from (skip : nat) (s : string) : string :=
  match s with
  | EmptyString => EmptyString
  | String c s' =>
      match skip with
      | S k => strip_parens_from k s'
      | O =>
          match paren_match_len s with
          | Some (S k) => strip_parens_from k s'
          | _ => String c (strip_parens_from 0 s')
          end
      end
  end.

Definition strip_parens (s : string) : string := strip_parens_from 0 s.

(** The character [c] does not occur in [s]. *)
Fixpoint without (c : ascii) (s : string) : bool :=
  match s with
  | EmptyString => true
  | String c' s' => negb (Ascii.eqb c' c) && without c s'
  end.

Fixpoint all_space (s : string) : bool :=
  match s with
  | EmptyString => true
  | String c s' => is_space c && all_space s'
  end.

(** ** JavaScript values *)

(** A field that holds a name: absent, [null], or a string. *)
Inductive ostr : Type :=
  | Undef
  | Null
  | Str (s : string).

(** Truthiness of a name field: only a non-empty string is truthy. *)
Definition truthy (v : ostr) : bool :=
  match v with
  | Str s => negb (String.eqb s "")
  | _ => false
  end.

(** [a || b] on name fields. *)
Definition or_else (a b : ostr) : ostr := if truthy a then a else b.

(** [String(v || '')] *)
Definition to_string_or_empty (v : ostr) : string :=
  match v with
  | Str s => s
  | _ => ""
  end.

(** A name field interpolated into a template literal, or used as a
    property key. *)
Definition to_string (v : ostr) : string :=
  match v with
  | Undef => "undefined"
  | Null => "null"
  | Str s => s
  end.

(** [norm(v)] at a name field: [String(v || '')] and then the pipeline. *)
Definition norm_of (v : ostr) : string := norm (to_string_or_empty v).

(** A JavaScript number: a finite double, an infinity, or NaN. *)
Inductive jsnum : Type :=
  | Fin (q : Q)
  | PosInf
  | NegInf
  | NaN.

(** A field that holds a score or a stat value. *)
Inductive value : Type :=
  | VUndef
  | VNull
  | VBool (b : bool)
  | VNum (n : jsnum)
  | VStr (s : string).

(** [a ?? b] *)
Definition nullish (a b : value) : value :=
  match a with
  | VUndef | VNull => b
  | _ => a
  end.

(** [Number.isFinite(v)]: no coercion; the finite value when there is one. *)
Definition finite_number (v : value) : option Q :=
  match v with
  | VNum (Fin q) => Some q
  | _ => None
  end.

(** [x > y] on finite numbers. *)
Definition gt (x y : Q) : bool := negb (Qle_bool x y).

(** ** Team directory and logo resolver: [buildTeamLogosMap] *)

Record team_meta : Type := TeamMeta {
  school : ostr;
  abbreviation : ostr;
  alternateNames : option (list ostr);   (* [None]: not an array *)
  logos : option (list ostr);            (* [None]: not an array *)
  mascot : ostr
}.

Record entry : Type := Entry {
  e_school : ostr;
  e_abbreviation : ostr;
  e_alternateNames : list ostr;
  e_logo : ostr
}.

(** [Array.isArray(t.logos) && t.logos.length ? t.logos[0] : null] *)
Definition primaryLogo (t : team_meta) : ostr :=
  match logos t with
  | Some (l :: _) => l
  | _ => Null
  end.

Definition entry_of (t : team_meta) : entry :=
  {| e_school := school t;
     e_abbreviation := abbreviation t;
     e_alternateNames := default [] (alternateNames t);
     e_logo := primaryLogo t |}.

Record directory : Type := Directory {
  bySchool : gmap string entry;
  byAbbr : gmap string entry;
  byAlt : gmap string entry
}.

Definition empty_directory : directory :=
  {| bySchool := ∅; byAbbr := ∅; byAlt := ∅ |}.

(** [entry.alternateNames.forEach(a => byAlt.set(norm(a), entry))] *)
Fixpoint set_alternates (e : entry) (alts : list ostr)
    (m : gmap string entry) : gmap string entry :=
  match alts with
  | [] => m
  | a :: alts' => set_alternates e alts' (<[norm_of a := e]> m)
  end.

(** The body of the first [teamsMeta.forEach]. *)
Definition index_team (t : team_meta) (d : directory) : directory :=
  let e := entry_of t in
  let s := if truthy (school t) then <[norm_of (school t) := e]> (bySchool d)
           else bySchool d in
  let a := if truthy (abbreviation t)
           then <[norm_of (abbreviation t) := e]> (byAbbr d)
           else byAbbr d in
  let alt := set_alternates e (e_alternateNames e) (byAlt d) in
  let alt' := if truthy (mascot t)
              then <[norm (to_string (school t) ++ " " ++ to_string (mascot t)) := e]> alt
              else alt in
  {| bySchool := s; byAbbr := a; byAlt := alt' |}.

Fixpoint index_teams (ts : list team_meta) (d : directory) : directory :=
  match ts with
  | [] => d
  | t :: ts' => index_teams ts' (index_team t d)
  end.

Definition buildDirectory (teamsMeta : list team_meta) : directory :=
  index_teams teamsMeta empty_directory.

(** [a || b] on the results of [Map.get]: an entry is an object, hence
    truthy; [undefined] is [None]. *)
Definition hit_or (a b : option entry) : option entry :=
  match a with
  | Some e => Some e
  | None => b
  end.

(** The four lookups of the fallback chain, in source order. *)
Definition find_hit (d : directory) (name : string) : option entry :=
  let k := norm name in
  hit_or (bySchool d !! k)
    (hit_or (byAlt d !! k)
       (hit_or (bySchool d !! norm (strip_parens name))
          (byAbbr d !! k))).

(** [hit && hit.logo ? hit.logo : null] *)
Definition logo_or_null (hit : option entry) : ostr :=
  match hit with
  | Some e => if truthy (e_logo e) then e_logo e else Null
  | None => Null
  end.

Definition resolveLogo (d : directory) (name : string) : ostr :=
  logo_or_null (find_hit d name).

(** ** Games *)

Record game : Type := Game {
  home_team : ostr;
  homeTeam : ostr;
  away_team : ostr;
  awayTeam : ostr;
  home_points : value;
  homePoints : value;
  away_points : value;
  awayPoints : value
}.

(** The fields of a game that [extractFbsTeams] reads besides the team
    names. *)
Record classified_game : Type := ClassifiedGame {
  the_game : game;
  homeClassification : ostr;
  awayClassification : ostr
}.

(** ** Plain objects used as dictionaries *)

(** The property names a plain object inherits from [Object.prototype].
    Each of them reads as an object (a built-in function, and the
    prototype itself for [__proto__]), hence as a truthy value. *)
Definition inherited_names : list string :=
  [ "constructor"; "__defineGetter__"; "__defineSetter__"; "hasOwnProperty";
    "__lookupGetter__"; "__lookupSetter__"; "isPrototypeOf";
    "propertyIsEnumerable"; "toString"; "valueOf"; "__proto__";
    "toLocaleString" ].

Definition inherited (k : string) : bool :=
  existsb (String.eqb k) inherited_names.

(** A plain object whose prototype can be taken away: its own
    properties, and whether its prototype is still [Object.prototype]. *)
Record plain (V : Type) : Type := Plain {
  own : gmap string V;
  proto : bool
}.
Arguments Plain {V} own proto.
Arguments own {V} p.
Arguments proto {V} p.

(** [{}] *)
Global Instance plain_empty {V : Type} : Empty (plain V) :=
  {| own := ∅; proto := true |}.

(** The own property [k] of an object, if it has one. *)
Global Instance plain_lookup {V : Type} : Lookup string V (plain V) :=
  fun k o => own o !! k.

(** [teamLogos[k] = v] for a value that is a string or [null].  The name
    [__proto__] is an accessor of [Object.prototype]: while the object
    has that prototype, assigning [null] takes the prototype away,
    assigning a string does nothing, and neither makes an own property. *)
Definition assign (k : string) (v : ostr) (o : plain ostr) : plain ostr :=
  if String.eqb k "__proto__" && proto o then
    match v with
    | Null => {| own := own o; proto := false |}
    | _ => o
    end
  else {| own := <[k := v]> (own o); proto := proto o |}.

(** The body of [fbsTeams.forEach]: [teamLogos[name] = ...]. *)
Fixpoint resolve_names (d : directory) (names : list string)
    (teamLogos : plain ostr) : plain ostr :=
  match names with
  | [] => teamLogos
  | name :: names' =>
      resolve_names d names' (assign name (resolveLogo d name) teamLogos)
  end.

(** [!teamLogos[k]]: the own property is falsy, or there is none and
    nothing is inherited under that name. *)
Definition no_logo_at (teamLogos : plain ostr) (k : string) : bool :=
  match own teamLogos !! k with
  | Some v => negb (truthy v)
  | None => negb (proto teamLogos && inherited k)
  end.

(** The body of the second [teamsMeta.forEach]:
    [if (t.school && !teamLogos[t.school]) teamLogos[t.school] = primaryLogo]. *)
Definition add_school (t : team_meta) (teamLogos : plain ostr) : plain ostr :=
  if truthy (school t) && no_logo_at teamLogos (to_string (school t))
  then assign (to_string (school t)) (primaryLogo t) teamLogos
  else teamLogos.

Fixpoint add_schools (ts : list team_meta) (teamLogos : plain ostr)
    : plain ostr :=
  match ts with
  | [] => teamLogos
  | t :: ts' => add_schools ts' (add_school t teamLogos)
  end.

Definition buildTeamLogosMap (fbsTeams : list string)
    (teamsMeta : list team_meta) : plain ostr :=
  add_schools teamsMeta
    (resolve_names (buildDirectory teamsMeta) fbsTeams ∅).

(** *** [buildTeamLogosMap] on names that need not be strings *)

(** The body of [fbsTeams.forEach] for any name.  For a name that is
    [undefined] or [null], [norm(name)] is the empty key, and when the
    first two lookups miss, [name.replace] raises a [TypeError]: [None]. *)
Definition resolve_name_js (d : directory) (nm : ostr)
    (teamLogos : plain ostr) : option (plain ostr) :=
  match nm with
  | Str s => Some (assign s (resolveLogo d s) teamLogos)
  | _ =>
      match hit_or (bySchool d !! norm_of nm) (byAlt d !! norm_of nm) with
      | Some e => Some (assign (to_string nm) (logo_or_null (Some e)) teamLogos)
      | None => None
      end
  end.

Fixpoint resolve_names_js (d : directory) (names : list ostr)
    (teamLogos : plain ostr) : option (plain ostr) :=
  match names with
  | [] => Some teamLogos
  | nm :: names' =>
      match resolve_name_js d nm teamLogos with
      | Some m => resolve_names_js d names' m
      | None => None
      end
  end.

(** [buildTeamLogosMap] as the routes call it; [None] is the exception. *)
Definition buildTeamLogosMap_js (fbsTeams : list ostr)
    (teamsMeta : list team_meta) : option (plain ostr) :=
  match resolve_names_js (buildDirectory teamsMeta) fbsTeams ∅ with
  | Some m => Some (add_schools teamsMeta m)
  | None => None
  end.

(** [/projections] and [/stats]:
    [buildTeamLogosMap({ fbsTeams: teamsMeta.map(t => t.school), teamsMeta })] *)
Definition school_logos (teamsMeta : list team_meta)
    : option (plain ostr) :=
  buildTeamLogosMap_js (map school teamsMeta) teamsMeta.

(** ** [extractFbsTeams] and the [/teams] route *)

Global Instance ostr_eq_dec : EqDecision ostr.
Proof. solve_decision. Defined.

(** [x === 'fbs'] *)
Definition is_fbs (c : ostr) : bool :=
  match c with
  | Str s => String.eqb s "fbs"
  | _ => false
  end.

(** [Set.prototype.add]: a set keeps its elements in insertion order, and
    adding an element it already has changes nothing. *)
Definition set_add (x : ostr) (s : list ostr) : list ostr :=
  if decide (x ∈ s) then s else s ++ [x].

(** The body of [games.forEach] at lines 47-50. *)
Definition add_fbs_teams (g : classified_game) (fbsTeams : list ostr) : list ostr :=
  let s1 := if is_fbs (homeClassification g)
            then set_add (homeTeam (the_game g)) fbsTeams else fbsTeams in
  if is_fbs (awayClassification g)
  then set_add (awayTeam (the_game g)) s1 else s1.

Fixpoint add_all_fbs_teams (games : list classified_game) (fbsTeams : list ostr)
    : list ostr :=
  match games with
  | [] => fbsTeams
  | g :: games' => add_all_fbs_teams games' (add_fbs_teams g fbsTeams)
  end.

(** [Array.from(fbsTeams)] of the set built from the games. *)
Definition extractFbsTeams (games : list classified_game) : list ostr :=
  add_all_fbs_teams games [].

(** The team [x] is on a side of the game [g] that is classified 'fbs'. *)
Definition fbs_side (g : classified_game) (x : ostr) : Prop :=
  (is_fbs (homeClassification g) = true /\ homeTeam (the_game g) = x)
  \/ (is_fbs (awayClassification g) = true /\ awayTeam (the_game g) = x).

(** [/teams]: [buildTeamLogosMap({ fbsTeams: extractFbsTeams(games), teamsMeta })] *)
Definition teams_logos (games : list classified_game)
    (teamsMeta : list team_meta) : option (plain ostr) :=
  buildTeamLogosMap_js (extractFbsTeams games) teamsMeta.

(** *** Where the entries of a directory and the logos come from *)

(** The directory holds the entry [e] under some key of some index. *)
Definition holds (d : directory) (e : entry) : Prop :=
  exists k,
    bySchool d !! k = Some e \/ byAbbr d !! k = Some e \/ byAlt d !! k = Some e.

(** The value [v] is [null] or the primary logo of a team of the list. *)
Definition logo_from (ts : list team_meta) (v : ostr) : Prop :=
  v = Null \/ exists t, t ∈ ts /\ v = primaryLogo t.

(** The first hit of a sequence of lookups, in the words of the
    specification: each is tried in order and the first that hits is taken. *)
Fixpoint first_hit {A : Type} (lookups : list (option A)) : option A :=
  match lookups with
  | [] => None
  | Some a :: _ => Some a
  | None :: rest => first_hit rest
  end.

(** The third lookup as the specification words it: the name with a
    parenthesised suffix stripped, that is, without a match of
    [\s*\([^)]*\)\s*] that runs to the end of the name. *)
Fixpoint strip_paren_suffix (s : string) : string :=
  match s with
  | EmptyString => EmptyString
  | String c s' =>
      match paren_match_len s with
      | Some n =>
          if Nat.eqb n (String.length s) then EmptyString
          else String c (strip_paren_suffix s')
      | None => String c (strip_paren_suffix s')
      end
  end.

(** The chain of the specification, with that third lookup. *)
Definition find_hit_suffix (d : directory) (raw : string) : option entry :=
  first_hit [ bySchool d !! norm raw;
              byAlt d !! norm raw;
              bySchool d !! norm (strip_paren_suffix raw);
              byAbbr d !! norm raw ].

(** ** Game record aggregator: the [baseRecords] loop of [/projections] *)

Record record : Type := Record_ { wins : nat; losses : nat }.

(** What [baseRecords] holds under a name: a record made by the loop, or
    a built-in object that was inherited under that name and has become
    an own property. *)
Inductive rec_value : Type :=
  | Rec (r : record)
  | Builtin.

(** [g.home_points ?? g.homePoints] and [g.away_points ?? g.awayPoints] *)
Definition home_score (g : game) : value := nullish (home_points g) (homePoints g).
Definition away_score (g : game) : value := nullish (away_points g) (awayPoints g).

(** [g.home_team || g.homeTeam], as the property key it is used for. *)
Definition home_key (g : game) : string :=
  to_string (or_else (home_team g) (homeTeam g)).
Definition away_key (g : game) : string :=
  to_string (or_else (away_team g) (awayTeam g)).

(** [baseRecords[k] = baseRecords[k] || { wins: 0, losses: 0 }].  Under an
    inherited name the read yields the built-in object, which is truthy
    and is assigned back: it becomes an own property, except under
    [__proto__], where the assignment goes to the accessor. *)
Definition ensure (k : string) (m : gmap string rec_value)
    : gmap string rec_value :=
  match m !! k with
  | Some _ => m
  | None =>
      if inherited k then
        if String.eqb k "__proto__" then m else <[k := Builtin]> m
      else <[k := Rec {| wins := 0; losses := 0 |}]> m
  end.

(** [baseRecords[k].wins++] and [baseRecords[k].losses++].  On a built-in
    object the counter was [undefined] and becomes [NaN]; under
    [__proto__] the counter of [Object.prototype] does, and the
    dictionary is not touched. *)
Definition win (v : rec_value) : rec_value :=
  match v with
  | Rec r => Rec {| wins := S (wins r); losses := losses r |}
  | Builtin => Builtin
  end.
Definition loss (v : rec_value) : rec_value :=
  match v with
  | Rec r => Rec {| wins := wins r; losses := S (losses r) |}
  | Builtin => Builtin
  end.
Definition add_win (k : string) (m : gmap string rec_value)
    : gmap string rec_value := alter win k m.
Definition add_loss (k : string) (m : gmap string rec_value)
    : gmap string rec_value := alter loss k m.

(** The body of [games.forEach] at lines 168-178. *)
Definition record_game (g : game) (baseRecords : gmap string rec_value)
    : gmap string rec_value :=
  match finite_number (home_score g), finite_number (away_score g) with
  | Some hp, Some ap =>
      let home := home_key g in
      let away := away_key g in
      let m := ensure away (ensure home baseRecords) in
      if gt hp ap then add_loss away (add_win home m)
      else add_loss home (add_win away m)
  | _, _ => baseRecords
  end.

Fixpoint record_games (games : list game) (baseRecords : gmap string rec_value)
    : gmap string rec_value :=
  match games with
  | [] => baseRecords
  | g :: games' => record_games games' (record_game g baseRecords)
  end.

Definition aggregateRecords (games : list game) : gmap string rec_value :=
  record_games games ∅.


(** The reading of the specification, to compare [aggregateRecords]
    with.  It is written on the fields of a game, not on the accessors of
    the code. *)

(** A score under either naming convention: the first convention when
    it is present (neither missing nor [null]), else the second; the
    score counts when it is a finite number. *)
Definition spec_score (snake camel : value) : option Q :=
  match snake with
  | VUndef | VNull =>
      match camel with
      | VNum (Fin q) => Some q
      | _ => None
      end
  | VNum (Fin q) => Some q
  | _ => None
  end.

(** A team name under either naming convention: the first when it is a
    non-empty string, else the second; a name that is not there is used
    as the text "undefined" or "null". *)
Definition spec_name (snake camel : ostr) : string :=
  match snake with
  | Str (String c s) => String c s
  | _ =>
      match camel with
      | Str s => s
      | Undef => "undefined"
      | Null => "null"
      end
  end.

Definition spec_home (g : game) : string := spec_name (home_team g) (homeTeam g).
Definition spec_away (g : game) : string := spec_name (away_team g) (awayTeam g).

(** Both scores are finite numbers. *)
Definition counted (g : game) : bool :=
  match spec_score (home_points g) (homePoints g),
        spec_score (away_points g) (awayPoints g) with
  | Some _, Some _ => true
  | _, _ => false
  end.

(** The home score is strictly greater. *)
Definition home_wins (g : game) : bool :=
  match spec_score (home_points g) (homePoints g),
        spec_score (away_points g) (awayPoints g) with
  | Some hp, Some ap => if Qlt_le_dec ap hp then true else false
  | _, _ => false
  end.

Definition is_win_of (t : string) (g : game) : bool :=
  counted g && (if home_wins g then String.eqb (spec_home g) t
                else String.eqb (spec_away g) t).

Definition is_loss_of (t : string) (g : game) : bool :=
  counted g && (if home_wins g then String.eqb (spec_away g) t
                else String.eqb (spec_home g) t).

Definition plays_in (t : string) (g : game) : bool :=
  counted g && (String.eqb (spec_home g) t || String.eqb (spec_away g) t).

Fixpoint count_if {A : Type} (p : A -> bool) (l : list A) : nat :=
  match l with
  | [] => 0
  | x :: l' => (if p x then 1 else 0) + count_if p l'
  end.





(** What a name holds once it has taken part in a counted game, with [w]
    wins and [l] losses counted for it: nothing under [__proto__], a
    built-in object under any other inherited name, else its record. *)
Definition fresh (t : string) (w l : nat) : option rec_value :=
  if inherited t then
    if String.eqb t "__proto__" then None else Some Builtin
  else Some (Rec {| wins := w; losses := l |}).

(** A value after [w] more wins and [l] more losses. *)
Definition bumped (v : rec_value) (w l : nat) : rec_value :=
  match v with
  | Rec r => Rec {| wins := wins r + w; losses := losses r + l |}
  | Builtin => Builtin
  end.
(** ** The [rating] loop of [/projections] *)

(** A natural number as a double. *)
Definition num (n : nat) : Q := inject_Z (Z.of_nat n).

Section Rating.

Variable fdiv : Q -> Q -> Q.

(** [baseRecords[t] || { wins: 0, losses: 0 }]: the own property, else
    the built-in object inherited under that name, else a fresh record. *)
Definition record_or_default (baseRecords : gmap string rec_value) (k : string)
    : rec_value :=
  match baseRecords !! k with
  | Some v => v
  | None => if inherited k then Builtin else Rec {| wins := 0; losses := 0 |}
  end.

(** [gp ? r.wins / Math.max(1, gp) : 0] for [gp = r.wins + r.losses]; on a
    built-in object [gp] is [NaN], which is falsy. *)
Definition rating_value (baseRecords : gmap string rec_value) (k : string) : Q :=
  match record_or_default baseRecords k with
  | Rec r =>
      if Nat.eqb (wins r + losses r) 0 then 0%Q
      else fdiv (num (wins r)) (num (Nat.max 1 (wins r + losses r)))
  | Builtin => 0%Q
  end.

(** The body of [fbsTeams.forEach] at lines 181-185; the assignment of a
    number to [rating.__proto__] makes no property. *)
Definition rate_team (baseRecords : gmap string rec_value) (t : ostr)
    (rating : gmap string Q) : gmap string Q :=
  if String.eqb (to_string t) "__proto__" then rating
  else <[to_string t := rating_value baseRecords (to_string t)]> rating.

Fixpoint rate_teams (baseRecords : gmap string rec_value) (ts : list ostr)
    (rating : gmap string Q) : gmap string Q :=
  match ts with
  | [] => rating
  | t :: ts' => rate_teams baseRecords ts' (rate_team baseRecords t rating)
  end.

(** [rating] as the route renders it: the teams are the schools of
    [teamsMeta], the records those of the games; when
    [buildTeamLogosMap] has raised an exception before the loops, the
    [catch] renders [rating: {}]. *)
Definition ratings (games : list game) (teamsMeta : list team_meta)
    : gmap string Q :=
  match school_logos teamsMeta with
  | Some _ => rate_teams (aggregateRecords games) (map school teamsMeta) ∅
  | None => ∅
  end.

End Rating.

(** ** Statistics averager: the [completedCounts] and [rowsByTeam] loops
    of [/stats] *)

Record stat : Type := Stat {
  statName : ostr;
  category : ostr;
  name : ostr;
  s_value : value;
  s_stat : value;
  statValue : value
}.

Record stat_row : Type := StatRow {
  team : ostr;
  row_school : ostr;
  teamName : ostr;
  stats : option (list stat)             (* [None]: not an array *)
}.

(** What [completedCounts] holds under a key: a number, or the string
    that adding 1 to a built-in object (and then to that string) gives. *)
Inductive count : Type :=
  | Count (n : nat)
  | Garbage.

(** [completedCounts[k] = (completedCounts[k] || 0) + 1].  Under an
    inherited name the read yields a built-in object and the sum is a
    string; the assignment of a string to [__proto__] makes no property. *)
Definition bump (k : string) (m : gmap string count) : gmap string count :=
  match m !! k with
  | Some (Count n) => <[k := Count (n + 1)]> m
  | Some Garbage => <[k := Garbage]> m
  | None =>
      if inherited k then
        if String.eqb k "__proto__" then m else <[k := Garbage]> m
      else <[k := Count 1]> m
  end.

(** The body of [games.forEach] at lines 212-221. *)
Definition count_game (g : game) (completedCounts : gmap string count)
    : gmap string count :=
  match finite_number (home_score g), finite_number (away_score g) with
  | Some _, Some _ =>
      let hKey := norm_of (or_else (home_team g) (homeTeam g)) in
      let aKey := norm_of (or_else (away_team g) (awayTeam g)) in
      bump aKey (bump hKey completedCounts)
  | _, _ => completedCounts
  end.

Fixpoint count_games (games : list game) (completedCounts : gmap string count)
    : gmap string count :=
  match games with
  | [] => completedCounts
  | g :: games' => count_games games' (count_game g completedCounts)
  end.

(** [new Set(teamsMeta.map(t => norm(t.school)))] *)
Definition fbsSet_of (teamsMeta : list team_meta) : gset string :=
  list_to_set (map (fun t => norm_of (school t)) teamsMeta).

(** [Math.max(1, completedCounts[key] || 0)]: a number that is at least
    1, or [NaN] ([None]) when the read yields a string or a built-in
    object. *)
Definition games_played (completedCounts : gmap string count) (key : string)
    : option nat :=
  match completedCounts !! key with
  | Some (Count n) => Some (Nat.max 1 n)
  | Some Garbage => None
  | None => if inherited key then None else Some 1
  end.

(** How the loop over the rows ends: with the dictionary, or, as far as
    this model follows it, at the first assignment of a stat onto a
    built-in object ([Object.prototype] or one of its functions), which
    can change what later property reads and calls of the program yield;
    [Thrown] is an exception of the route. *)
Inductive outcome (A : Type) : Type :=
  | Done (a : A)
  | BuiltinWritten
  | Thrown.
Arguments Done {A} a.
Arguments BuiltinWritten {A}.
Arguments Thrown {A}.

Section Averages.

(** Division of doubles, and the conversion of a string to a number
    ([StringToNumber] of the language), are taken as given. *)
Variable fdiv : Q -> Q -> Q.
Variable StringToNumber : string -> jsnum.

(** [Number(v)] *)
Definition to_number (v : value) : jsnum :=
  match v with
  | VUndef => NaN
  | VNull => Fin 0
  | VBool true => Fin 1
  | VBool false => Fin 0
  | VNum n => n
  | VStr s => StringToNumber s
  end.

(** [Number(s.value ?? s.stat ?? s.statValue)], when it is finite. *)
Definition stat_number (s : stat) : option Q :=
  match to_number (nullish (nullish (s_value s) (s_stat s)) (statValue s)) with
  | Fin q => Some q
  | _ => None
  end.

(** [s.statName || s.category || s.name] *)
Definition stat_key (s : stat) : ostr :=
  or_else (or_else (statName s) (category s)) (name s).

(** [val / gp] *)
Definition quotient (val : Q) (gp : option nat) : jsnum :=
  match gp with
  | Some n => Fin (fdiv val (inject_Z (Z.of_nat n)))
  | None => NaN
  end.

(** The stat passes the guard [!name || !Number.isFinite(val)]: the
    assignment [acc[name] = val / gp] is reached. *)
Definition passes_guard (s : stat) : bool :=
  match stat_number s with
  | Some _ => truthy (stat_key s)
  | None => false
  end.

(** The body of [row.stats.forEach] on a row object of the dictionary:
    [acc[name] = val / gp], unless the name is falsy or the value is not
    finite; the assignment of a number to [acc.__proto__] makes no
    property. *)
Definition add_stat (gp : option nat) (s : stat) (acc : gmap string jsnum)
    : gmap string jsnum :=
  match stat_number s with
  | Some val =>
      if truthy (stat_key s)
         && negb (String.eqb (to_string (stat_key s)) "__proto__")
      then <[to_string (stat_key s) := quotient val gp]> acc
      else acc
  | None => acc
  end.

Fixpoint add_stats (gp : option nat) (ss : list stat) (acc : gmap string jsnum)
    : gmap string jsnum :=
  match ss with
  | [] => acc
  | s :: ss' => add_stats gp ss' (add_stat gp s acc)
  end.

(** [row.team || row.school || row.teamName] *)
Definition row_team (row : stat_row) : ostr :=
  or_else (or_else (team row) (row_school row)) (teamName row).

(** The body of [statsRows.forEach] at lines 228-240.  [rowsByTeam[team]
    ||= {}] yields the own row object, or makes one, unless the name is
    inherited: then [acc] is a built-in object, no entry is made, and
    every stat that passes the guard is assigned onto that object. *)
Definition add_row (completedCounts : gmap string count) (fbsSet : gset string)
    (row : stat_row) (rowsByTeam : gmap string (gmap string jsnum))
    : outcome (gmap string (gmap string jsnum)) :=
  let key := norm_of (row_team row) in
  if decide (key ∈ fbsSet) then
    let gp := games_played completedCounts key in
    let k := to_string (row_team row) in
    let ss := default [] (stats row) in
    match rowsByTeam !! k with
    | Some acc => Done (<[k := add_stats gp ss acc]> rowsByTeam)
    | None =>
        if inherited k then
          if existsb passes_guard ss then BuiltinWritten
          else Done rowsByTeam
        else Done (<[k := add_stats gp ss ∅]> rowsByTeam)
    end
  else Done rowsByTeam.

(** The row makes the loop assign a stat onto a built-in object: its
    key is in the FBS set, its team name is inherited, and one of its
    stats passes the guard. *)
Definition writes_builtin (fbsSet : gset string) (row : stat_row) : bool :=
  bool_decide (norm_of (row_team row) ∈ fbsSet)
  && inherited (to_string (row_team row))
  && existsb passes_guard (default [] (stats row)).

Fixpoint add_rows (completedCounts : gmap string count) (fbsSet : gset string)
    (rows : list stat_row) (rowsByTeam : gmap string (gmap string jsnum))
    : outcome (gmap string (gmap string jsnum)) :=
  match rows with
  | [] => Done rowsByTeam
  | row :: rows' =>
      match add_row completedCounts fbsSet row rowsByTeam with
      | Done m => add_rows completedCounts fbsSet rows' m
      | BuiltinWritten => BuiltinWritten
      | Thrown => Thrown
      end
  end.

(** [statsRows] is [None] when the payload is not an array. *)
Definition averageStats (statsRows : option (list stat_row))
    (completedCounts : gmap string count) (fbsSet : gset string)
    : outcome (gmap string (gmap string jsnum)) :=
  add_rows completedCounts fbsSet (default [] statsRows) ∅.

(** The value [v] is the average of a finite stat named [n] of a row of
    the team [k] that passes the FBS filter. *)
Definition average_of (completedCounts : gmap string count) (fbsSet : gset string)
    (rows : list stat_row) (k n : string) (v : jsnum) : Prop :=
  exists row s val,
    row ∈ rows /\ to_string (row_team row) = k
    /\ norm_of (row_team row) ∈ fbsSet
    /\ s ∈ default [] (stats row)
    /\ stat_number s = Some val
    /\ truthy (stat_key s) = true /\ to_string (stat_key s) = n
    /\ v = quotient val (games_played completedCounts (norm_of (row_team row))).

(** [rowsByTeam] as the route computes it from the three payloads; the
    route answers 500 when [buildTeamLogosMap] has raised an exception
    before the loop. *)
Definition stats_rows (games : list game) (teamsMeta : list team_meta)
    (statsRows : option (list stat_row))
    : outcome (gmap string (gmap string jsnum)) :=
  match school_logos teamsMeta with
  | Some _ =>
      averageStats statsRows (count_games games ∅) (fbsSet_of teamsMeta)
  | None => Thrown
  end.

End Averages.

(** *** Counting, in the words of the code comments *)

(** [norm(home)] and [norm(away)] of a game, read from its fields. *)
Definition home_norm (g : game) : string :=
  norm (match home_team g with
        | Str (String c s) => String c s
        | _ => match homeTeam g with Str s => s | _ => "" end
        end).
Definition away_norm (g : game) : string :=
  norm (match away_team g with
        | Str (String c s) => String c s
        | _ => match awayTeam g with Str s => s | _ => "" end
        end).

(** How often the key [k] takes part in the game [g], if it is counted. *)
Definition appearances (k : string) (g : game) : nat :=
  if counted g
  then Nat.b2n (String.eqb (home_norm g) k) + Nat.b2n (String.eqb (away_norm g) k)
  else 0.

Fixpoint sum_of {A : Type} (f : A -> nat) (l : list A) : nat :=
  match l with
  | [] => 0
  | x :: l' => f x + sum_of f l'
  end.


(** What [completedCounts] holds under a key that has been counted [n]
    times: nothing before the first time and under [__proto__], a string
    under any other inherited name, else the number. *)
Definition counted_as (k : string) (n : nat) : option count :=
  if Nat.eqb n 0 then None
  else if inherited k then
    if String.eqb k "__proto__" then None else Some Garbage
  else Some (Count n).
(** ** Poll ranking extractor: the week loop of [/polls] *)

Record rank_entry : Type := RankEntry { rank : Z; rank_school : string }.

Record poll : Type := Poll {
  poll_name : ostr;                       (* the [poll] property *)
  ranks : option (list rank_entry)        (* [None]: not an array *)
}.

Record ranking_entry : Type := RankingEntry {
  week : option Z;                        (* [None]: missing *)
  polls : option (list (option poll))     (* [None]: missing; a [None] element is [null] *)
}.

Record bucket : Type := Bucket {
  b_week : Z;
  b_ap : list rank_entry;
  b_coaches : list rank_entry
}.

(** A stable sort by an integer key, as [Array.prototype.sort] is with
    the comparator [(a, b) => key(a) - key(b)]. *)
Fixpoint insert_by {A : Type} (key : A -> Z) (x : A) (l : list A) : list A :=
  match l with
  | [] => [x]
  | y :: l' => if (key x <=? key y)%Z then x :: l else y :: insert_by key x l'
  end.

Fixpoint sort_by {A : Type} (key : A -> Z) (l : list A) : list A :=
  match l with
  | [] => []
  | x :: l' => insert_by key x (sort_by key l')
  end.

(** [entry.week || 0] *)
Definition week_of (e : ranking_entry) : Z := default 0%Z (week e).

(** [p && p.poll === 'AP Top 25'] and [p && p.poll === 'Coaches Poll'] *)
Definition has_name (n : string) (p : option poll) : bool :=
  match p with
  | Some q => match poll_name q with
              | Str s => String.eqb s n
              | _ => false
              end
  | None => false
  end.
Definition isAP : option poll -> bool := has_name "AP Top 25".
Definition isCoaches : option poll -> bool := has_name "Coaches Poll".

(** [(entry.polls || []).find(pred)] *)
Fixpoint find_poll (pred : option poll -> bool) (ps : list (option poll))
    : option poll :=
  match ps with
  | [] => None
  | p :: ps' => if pred p then p else find_poll pred ps'
  end.

Definition ap_of (e : ranking_entry) : option poll :=
  find_poll isAP (default [] (polls e)).
Definition coaches_of (e : ranking_entry) : option poll :=
  find_poll isCoaches (default [] (polls e)).

(** [p && Array.isArray(p.ranks) ? p.ranks.slice().sort(byRank) : []] *)
Definition sorted_ranks (p : option poll) : list rank_entry :=
  match p with
  | Some q => match ranks q with
              | Some rs => sort_by rank rs
              | None => []
              end
  | None => []
  end.

Definition bucket_of (e : ranking_entry) : bucket :=
  {| b_week := week_of e;
     b_ap := sorted_ranks (ap_of e);
     b_coaches := sorted_ranks (coaches_of e) |}.

(** [!ap && !coaches] *)
Definition both_absent (e : ranking_entry) : bool :=
  match ap_of e, coaches_of e with
  | None, None => true
  | _, _ => false
  end.

(** The [for (const entry of sorted)] loop, threading [weeks] and
    [latest]; the first branch is the [break]. *)
Fixpoint walk (es : list ranking_entry) (weeks : list bucket)
    (latest : option bucket) : list bucket * option bucket :=
  match es with
  | [] => (weeks, latest)
  | e :: es' =>
      if both_absent e then (weeks, latest)
      else let b := bucket_of e in walk es' (weeks ++ [b]) (Some b)
  end.

(** [rankings] is [None] when the payload is not an array. *)
Definition sorted_entries (rankings : option (list ranking_entry))
    : list ranking_entry :=
  sort_by week_of (default [] rankings).

Definition collect (rankings : option (list ranking_entry))
    : list bucket * option bucket :=
  walk (sorted_entries rankings) [] None.

(** [String(req.query.mode || 'latest').toLowerCase()]; [None] is a
    missing query parameter. *)
Definition mode_of (query_mode : option string) : string :=
  toLowerCase
    (match query_mode with
     | Some s => if String.eqb s "" then "latest" else s
     | None => "latest"
     end).

(** [mode === 'all' ? weeks : (latest ? [latest] : [])] *)
Definition extractPolls (rankings : option (list ranking_entry))
    (query_mode : option string) : list bucket :=
  let '(weeks, latest) := collect rankings in
  if String.eqb (mode_of query_mode) "all" then weeks
  else match latest with
       | Some b => [b]
       | None => []
       end.

(** The entries before the first one in which both tracked polls are
    absent, in the words of the specification. *)
Fixpoint before_stop (es : list ranking_entry) : list ranking_entry :=
  match es with
  | [] => []
  | e :: es' => if both_absent e then [] else e :: before_stop es'
  end.

(** Ascending order of an integer key. *)
Definition key_le {A : Type} (key : A -> Z) (a b : A) : Prop :=
  (key a <= key b)%Z.

(** ** Sample inputs *)

Definition ap_poll : poll :=
  {| poll_name := Str "AP Top 25";
     ranks := Some [ {| rank := 2; rank_school := "Texas" |};
                     {| rank := 1; rank_school := "Georgia" |} ] |}.

Definition coaches_poll : poll :=
  {| poll_name := Str "Coaches Poll";
     ranks := Some [ {| rank := 1; rank_school := "Georgia" |};
                     {| rank := 2; rank_school := "Ohio State" |} ] |}.

Definition fcs_poll : poll :=
  {| poll_name := Str "FCS Coaches Poll";
     ranks := Some [ {| rank := 1; rank_school := "Montana" |} ] |}.

(** Weeks 3, 1, 2 as they may arrive: week 1 has both tracked polls,
    week 2 has neither, week 3 has the AP poll. *)
Definition rankings_with_gap : option (list ranking_entry) :=
  Some [ {| week := Some 3%Z; polls := Some [Some ap_poll] |};
         {| week := Some 1%Z; polls := Some [Some fcs_poll; Some ap_poll; Some coaches_poll] |};
         {| week := Some 2%Z; polls := Some [Some fcs_poll] |} ].

(** The same three weeks in order, week 2 carrying no poll at all. *)
Definition rankings_in_order : option (list ranking_entry) :=
  Some [ {| week := Some 1%Z; polls := Some [Some ap_poll; Some coaches_poll] |};
         {| week := Some 2%Z; polls := Some [] |};
         {| week := Some 3%Z; polls := Some [Some ap_poll] |} ].

(** An entry without a week number, and one of week 1. *)
Definition rankings_missing_week : option (list ranking_entry) :=
  Some [ {| week := Some 1%Z; polls := Some [Some ap_poll] |};
         {| week := None; polls := Some [Some coaches_poll] |} ].

Definition bucket_week1 : bucket :=
  {| b_week := 1;
     b_ap := [ {| rank := 1; rank_school := "Georgia" |};
               {| rank := 2; rank_school := "Texas" |} ];
     b_coaches := [ {| rank := 1; rank_school := "Georgia" |};
                    {| rank := 2; rank_school := "Ohio State" |} ] |}.

Definition team_named (s : string) (ls : option (list ostr)) : team_meta :=
  {| school := Str s; abbreviation := Undef; alternateNames := None;
     logos := ls; mascot := Undef |}.

Definition team_miami : team_meta :=
  {| school := Str "Miami"; abbreviation := Str "MIA";
     alternateNames := Some [Str "Miami Florida"];
     logos := Some [Str "miami.png"; Str "miami-dark.png"];
     mascot := Str "Hurricanes" |}.

Definition team_rice_no_logo : team_meta :=
  {| school := Str "Rice"; abbreviation := Str "RICE";
     alternateNames := Some []; logos := Some []; mascot := Str "Owls" |}.


Definition game_AB : game :=
  {| home_team := Undef; homeTeam := Str "A"; away_team := Undef; awayTeam := Str "B";
     home_points := VUndef; homePoints := VNum (Fin 20);
     away_points := VUndef; awayPoints := VNum (Fin 10) |}.


Definition game_tie : game :=
  {| home_team := Str "A"; homeTeam := Undef; away_team := Str "B"; awayTeam := Undef;
     home_points := VNum (Fin 7); homePoints := VUndef;
     away_points := VNum (Fin 7); awayPoints := VUndef |}.

Definition stat_named (n : string) (v : value) : stat :=
  {| statName := Str n; category := Undef; name := Undef;
     s_value := VUndef; s_stat := VUndef; statValue := v |}.

(** One row of team "A": a number, a [null] and a missing value. *)
Definition row_A : stat_row :=
  {| team := Str "A"; row_school := Undef; teamName := Undef;
     stats := Some [ stat_named "rushingYards" (VNum (Fin 300));
                     stat_named "sacks" VNull;
                     stat_named "turnovers" VUndef ] |}.

Definition fbs_game (h a : string) (ac : ostr) : classified_game :=
  {| the_game :=
       {| home_team := Undef; homeTeam := Str h;
          away_team := Undef; awayTeam := Str a;
          home_points := VUndef; homePoints := VNum (Fin 21);
          away_points := VUndef; awayPoints := VNum (Fin 14) |};
     homeClassification := Str "fbs";
     awayClassification := ac |}.

Definition schedule : list classified_game :=
  [ fbs_game "Miami" "Rice" (Str "fbs");
    fbs_game "Rice" "Montana" (Str "fcs");
    fbs_game "Tulsa" "Miami" (Str "fbs") ].


(** A directory with a school "ST", and a name with a parenthesised
    part in the middle. *)
Definition team_ST : team_meta := team_named "ST" (Some [Str "st.png"]).
(** * Properties *)

(** ** Name normaliser *)

Example norm_texas_am : norm "Texas A&M" = "texasaandm".
Proof. reflexivity. Qed.

Example norm_miami_fl : norm "Miami (FL)" = "miamifl".
Proof. reflexivity. Qed.

Example strip_parens_miami : strip_parens "Miami (FL)" = "Miami".
Proof. reflexivity. Qed.

Example strip_parens_two : strip_parens "a (b) c(d)e ( f" = "ace ( f".
Proof. reflexivity. Qed.

Ltac each_char c :=
  destruct c as [[] [] [] [] [] [] [] []]; vm_compute; try reflexivity; try discriminate.

Lemma key_char_lower c : is_key_char c = true -> lower_char c = c.
Proof. each_char c. Qed.

Lemma key_char_not_amp c : is_key_char c = true -> Ascii.eqb c "&" = false.
Proof. each_char c. Qed.

Lemma all_key_strip s : all_key (strip_non_key s) = true.
Proof.
  induction s as [|c s IH]; simpl; [reflexivity|].
  destruct (is_key_char c) eqn:E; simpl; [rewrite E|]; exact IH.
Qed.

Lemma all_key_toLowerCase s : all_key s = true -> toLowerCase s = s.
Proof.
  induction s as [|c s IH]; simpl; [reflexivity|].
  intros [Hc Hs]%andb_prop. rewrite key_char_lower, IH; auto.
Qed.

Lemma all_key_replace_amp s : all_key s = true -> replace_amp s = s.
Proof.
  induction s as [|c s IH]; simpl; [reflexivity|].
  intros [Hc Hs]%andb_prop. rewrite key_char_not_amp, IH; auto.
Qed.

Lemma all_key_strip_id s : all_key s = true -> strip_non_key s = s.
Proof.
  induction s as [|c s IH]; simpl; [reflexivity|].
  intros [Hc Hs]%andb_prop. rewrite Hc, IH; auto.
Qed.

Lemma norm_all_key s : all_key (norm s) = true.
Proof. apply all_key_strip. Qed.

Lemma norm_fixes_keys s : all_key s = true -> norm s = s.
Proof.
  intros H. unfold norm.
  rewrite all_key_toLowerCase, all_key_replace_amp, all_key_strip_id; auto.
Qed.

(** C8. The name normaliser is idempotent: normalising a normalised
    string gives the same string again. *)
Theorem norm_idempotent : forall s : string, norm (norm s) = norm s.
Proof. intros s. apply norm_fixes_keys, norm_all_key. Qed.

(** *** Stripping a parenthesised suffix *)

Lemma paren_match_space c s :
  is_space c = true ->
  paren_match_len (String c s) = S <$> paren_match_len s.
Proof.
  intros Hc. unfold paren_match_len. simpl. rewrite Hc. simpl.
  destruct (drop (space_run s) s) as [|c1 s1]; [reflexivity|].
  destruct (Ascii.eqb c1 "("); [|reflexivity].
  destruct (close_len s1); reflexivity.
Qed.

Lemma paren_match_other c s :
  is_space c = false -> Ascii.eqb c "(" = false ->
  paren_match_len (String c s) = None.
Proof.
  intros Hc Hp. unfold paren_match_len. simpl. rewrite Hc. simpl.
  rewrite Hp. reflexivity.
Qed.

Lemma close_len_inner inner rest :
  without ")" inner = true ->
  close_len (inner ++ String ")" rest) = Some (S (String.length inner))
  /\ drop (S (String.length inner)) (inner ++ String ")" rest) = rest.
Proof.
  induction inner as [|c inner IH]; simpl; [auto|].
  intros [Hc Hi]%andb_prop. apply negb_true_iff in Hc. rewrite Hc.
  destruct (IH Hi) as [-> E]. split; [reflexivity|]. exact E.
Qed.

Lemma length_append (a b : string) :
  String.length (a ++ b) = String.length a + String.length b.
Proof. induction a as [|c a IH]; simpl; [reflexivity|]. rewrite IH. reflexivity. Qed.

Lemma append_nil (b : string) : ("" ++ b)%string = b.
Proof. reflexivity. Qed.

Lemma append_cons c (a b : string) :
  (String c a ++ b)%string = String c (a ++ b)%string.
Proof. reflexivity. Qed.

(** A parenthesised group at the end of the string is matched whole. *)
Lemma paren_match_group inner :
  without ")" inner = true ->
  paren_match_len (String "(" (inner ++ ")"))
  = Some (String.length (String "(" (inner ++ ")"))).
Proof.
  intros Hi. unfold paren_match_len. simpl.
  destruct (close_len_inner inner "" Hi) as [-> ->]. simpl.
  rewrite length_append. simpl. f_equal. lia.
Qed.

(** In front of the group, a match can only start in the white space
    that leads to it, and it then runs to the end of the string. *)
Lemma paren_match_before_group base inner n :
  without "(" base = true -> without ")" inner = true ->
  paren_match_len (base ++ String "(" (inner ++ ")")) = Some n ->
  n = String.length (base ++ String "(" (inner ++ ")")) /\ all_space base = true.
Proof.
  intros Hb Hi. revert n. induction base as [|c base IH]; intros n.
  - rewrite append_nil, paren_match_group by exact Hi.
    intros [= <-]. auto.
  - simpl in Hb. apply andb_prop in Hb as [Hc Hb]. apply negb_true_iff in Hc.
    rewrite append_cons. destruct (is_space c) eqn:Hs.
    + rewrite paren_match_space by exact Hs.
      destruct (paren_match_len _) as [k|] eqn:E; [|discriminate].
      intros [= <-]. destruct (IH Hb k eq_refl) as [-> Ha].
      simpl. rewrite Hs, Ha. auto.
    + rewrite paren_match_other by assumption. discriminate.
Qed.

Lemma strip_parens_from_all k s :
  String.length s <= k -> strip_parens_from k s = "".
Proof.
  revert k. induction s as [|c s IH]; intros k Hk; [reflexivity|].
  simpl in *. destruct k as [|k]; [lia|]. apply IH. lia.
Qed.

Lemma norm_cons c s :
  norm (String c s) = (norm (String c "") ++ norm s)%string.
Proof.
  unfold norm. simpl.
  destruct (Ascii.eqb (lower_char c) "&"); simpl; [reflexivity|].
  destruct (is_key_char (lower_char c)); reflexivity.
Qed.

Lemma norm_space c : is_space c = true -> norm (String c "") = "".
Proof. each_char c. Qed.

Lemma norm_all_space s : all_space s = true -> norm s = "".
Proof.
  induction s as [|c s IH]; [reflexivity|].
  simpl. intros [Hc Hs]%andb_prop.
  rewrite norm_cons, norm_space, IH by assumption. reflexivity.
Qed.

(** Stripping a parenthesised suffix: a name [base (inner)] is looked up
    under the key of [base]. *)
Lemma norm_strip_parens_suffix base inner :
  without "(" base = true -> without ")" inner = true ->
  norm (strip_parens (base ++ String "(" (inner ++ ")"))) = norm base.
Proof.
  intros Hb Hi. unfold strip_parens.
  induction base as [|c base IH].
  - rewrite append_nil. cbn [strip_parens_from].
    rewrite paren_match_group by exact Hi. cbn [String.length].
    rewrite strip_parens_from_all by lia. reflexivity.
  - assert (Hb' : without "(" base = true)
      by (simpl in Hb; apply andb_prop in Hb; tauto).
    assert (Hstep : norm (String c (strip_parens_from 0
                      (base ++ String "(" (inner ++ ")"))))
                    = norm (String c base)).
    { rewrite (norm_cons c base), (norm_cons c (strip_parens_from _ _)), IH
        by exact Hb'. reflexivity. }
    rewrite append_cons. cbn [strip_parens_from].
    destruct (paren_match_len _) as [[|k]|] eqn:E; try exact Hstep.
    rewrite <- append_cons in E.
    destruct (paren_match_before_group _ _ _ Hb Hi E) as [Hn Ha].
    rewrite append_cons in Hn. cbn [String.length] in Hn. injection Hn as ->.
    rewrite strip_parens_from_all by lia.
    rewrite (norm_all_space _ Ha). reflexivity.
Qed.

Example norm_strip_miami :
  norm (strip_parens "Miami (FL)") = norm "Miami" /\ norm "Miami (FL)" <> norm "Miami".
Proof. split; [reflexivity|discriminate]. Qed.


(** ** Name normaliser *)

Lemma append_assoc_s (a b c : string) :
  ((a ++ b) ++ c)%string = (a ++ (b ++ c))%string.
Proof.
  induction a as [|x a IH]; [reflexivity|].
  rewrite !append_cons. f_equal. exact IH.
Qed.

Lemma norm_append (a b : string) : norm (a ++ b) = (norm a ++ norm b)%string.
Proof.
  induction a as [|c a IH].
  - reflexivity.
  - rewrite append_cons, (norm_cons c (a ++ b)), (norm_cons c a), IH.
    symmetry. apply append_assoc_s.
Qed.

(** X1. The normaliser works character by character: the key of a
    concatenation is the concatenation of the keys, so the key of a name
    is made of the keys of its words in order, and the empty name (also
    a name that is missing or null) has the empty key. *)
Theorem norm_app : forall a b c : string,
  norm (a ++ b) = (norm a ++ norm b)%string
  /\ norm (a ++ b ++ c) = (norm a ++ norm b ++ norm c)%string
  /\ norm_of Undef = "" /\ norm_of Null = "" /\ norm_of (Str "") = "".
Proof.
  intros a b c. split; [apply norm_append|]. split.
  - rewrite !norm_append. reflexivity.
  - repeat split; reflexivity.
Qed.

(** X2. An ampersand and the word "and" give the same key, wherever they
    stand and whatever the white space around the word. *)
Theorem norm_ampersand_and : forall a b : string,
  norm (a ++ "&" ++ b) = norm (a ++ " and " ++ b)
  /\ norm (a ++ "&" ++ b) = norm (a ++ "AND" ++ b)
  /\ norm (a ++ "&" ++ b) = (norm a ++ "and" ++ norm b)%string.
Proof.
  intros a b. rewrite !norm_append. repeat split; reflexivity.
Qed.

Lemma norm_non_key_char c :
  is_key_char (lower_char c) = false -> Ascii.eqb c "&" = false ->
  norm (String c "") = "".
Proof. each_char c. Qed.

(** X3. On the code units below U+0100 that the model covers, a
    character that is neither a letter A-Z or a-z, nor a digit, nor an
    ampersand leaves no trace in the key: names that differ only in such
    punctuation, white space or accented Latin-1 letters have the same
    key.  (Code units from U+0100 on are outside this statement; two of
    them lowercase to a letter.) *)
Theorem norm_ignores_punctuation : forall (a b : string) (c : ascii),
  is_key_char (lower_char c) = false -> Ascii.eqb c "&" = false ->
  norm (a ++ String c b) = norm (a ++ b).
Proof.
  intros a b c Hk Ha.
  rewrite !norm_append, (norm_cons c b), norm_non_key_char by assumption.
  reflexivity.
Qed.

Lemma norm_ignores_punctuation_witness :
  norm ("Hawai" ++ String "'" "i") = norm ("Hawai" ++ "i").
Proof.
  apply (norm_ignores_punctuation "Hawai" "i" "'"); reflexivity.
Defined.

Lemma lower_char_idem c : lower_char (lower_char c) = lower_char c.
Proof. each_char c. Qed.

Lemma toLowerCase_idem s : toLowerCase (toLowerCase s) = toLowerCase s.
Proof.
  induction s as [|c s IH]; simpl; [reflexivity|].
  rewrite lower_char_idem, IH. reflexivity.
Qed.

Lemma length_strip_non_key s :
  String.length (strip_non_key s) <= String.length s.
Proof.
  induction s as [|c s IH]; simpl; [lia|].
  destruct (is_key_char c); simpl; lia.
Qed.

Lemma length_replace_amp s :
  String.length (replace_amp s) <= 3 * String.length s.
Proof.
  induction s as [|c s IH]; [simpl; lia|].
  cbn [replace_amp]. destruct (Ascii.eqb c "&");
    rewrite ?length_append; cbn [String.length]; lia.
Qed.

Lemma length_toLowerCase s : String.length (toLowerCase s) = String.length s.
Proof. induction s as [|c s IH]; simpl; [reflexivity|]. rewrite IH. reflexivity. Qed.

(** X4. A key consists of the characters a-z and 0-9 only, it does not
    depend on the case of the name, and it is at most three times as long
    as the name (an ampersand becomes three letters). *)
Theorem norm_key_shape : forall s : string,
  all_key (norm s) = true
  /\ norm (toLowerCase s) = norm s
  /\ String.length (norm s) <= 3 * String.length s.
Proof.
  intros s. split; [apply all_key_strip|]. split.
  - unfold norm. rewrite toLowerCase_idem. reflexivity.
  - unfold norm.
    pose proof (length_strip_non_key (replace_amp (toLowerCase s))).
    pose proof (length_replace_amp (toLowerCase s)).
    rewrite length_toLowerCase in *. lia.
Qed.

(** ** Stripping parentheses *)

Lemma close_len_without s : without ")" s = true -> close_len s = None.
Proof.
  induction s as [|c s IH]; [reflexivity|].
  simpl. intros [Hc Hs]%andb_prop. apply negb_true_iff in Hc.
  rewrite Hc, IH by exact Hs. reflexivity.
Qed.

Lemma paren_match_open c s :
  is_space c = false ->
  paren_match_len (String c s)
  = if Ascii.eqb c "(" then
      match close_len s with
      | Some n2 => Some (0 + 1 + n2 + space_run (drop n2 s))
      | None => None
      end
    else None.
Proof. intros Hc. unfold paren_match_len. simpl. rewrite Hc. reflexivity. Qed.

Lemma paren_match_none s :
  without "(" s = true \/ without ")" s = true -> paren_match_len s = None.
Proof.
  induction s as [|c s IH]; [reflexivity|].
  intros H. destruct (is_space c) eqn:Hs.
  - rewrite paren_match_space by exact Hs. rewrite IH; [reflexivity|].
    simpl in H. destruct H as [H|H]; apply andb_prop in H; tauto.
  - rewrite paren_match_open by exact Hs.
    destruct (Ascii.eqb c "(") eqn:Ho; [|reflexivity].
    destruct H as [H|H]; simpl in H; apply andb_prop in H as [Hc H].
    + rewrite Ho in Hc. discriminate.
    + rewrite close_len_without by exact H. reflexivity.
Qed.

Lemma without_tail c x s :
  without c (String x s) = true -> without c s = true.
Proof. simpl. intros H. apply andb_prop in H. tauto. Qed.

Lemma strip_parens_id s :
  without "(" s = true \/ without ")" s = true -> strip_parens s = s.
Proof.
  unfold strip_parens. induction s as [|c s IH]; [reflexivity|].
  intros H. cbn [strip_parens_from].
  rewrite (paren_match_none _ H), IH; [reflexivity|].
  destruct H as [H|H]; [left|right]; exact (without_tail _ _ _ H).
Qed.

(** X5. A name without an opening parenthesis, or without a closing one,
    is not changed by the paren stripping, so the third lookup of the
    resolver repeats the first: such a name is resolved by the school
    index, the alternate-name index and the abbreviation index alone. *)
Theorem resolver_without_parens : forall (d : directory) (raw : string),
  without "(" raw = true \/ without ")" raw = true ->
  strip_parens raw = raw
  /\ find_hit d raw
     = first_hit [ bySchool d !! norm raw; byAlt d !! norm raw;
                   byAbbr d !! norm raw ].
Proof.
  intros d raw H. pose proof (strip_parens_id raw H) as E.
  split; [exact E|]. unfold find_hit. rewrite E. simpl.
  destruct (bySchool d !! norm raw); [reflexivity|].
  destruct (byAlt d !! norm raw); [reflexivity|].
  destruct (byAbbr d !! norm raw); reflexivity.
Qed.

Lemma resolver_without_parens_witness :
  strip_parens "Ohio State" = "Ohio State"
  /\ find_hit (buildDirectory [team_miami]) "Ohio State"
     = first_hit [ bySchool (buildDirectory [team_miami]) !! norm "Ohio State";
                   byAlt (buildDirectory [team_miami]) !! norm "Ohio State";
                   byAbbr (buildDirectory [team_miami]) !! norm "Ohio State" ].
Proof.
  apply (resolver_without_parens (buildDirectory [team_miami]) "Ohio State").
  left. reflexivity.
Defined.

(** *** Case *)

Lemma lower_char_class c :
  is_space (lower_char c) = is_space c
  /\ Ascii.eqb (lower_char c) "(" = Ascii.eqb c "("
  /\ Ascii.eqb (lower_char c) ")" = Ascii.eqb c ")".
Proof.
  destruct c as [[] [] [] [] [] [] [] []]; vm_compute; repeat split.
Qed.

Lemma space_run_lower s : space_run (toLowerCase s) = space_run s.
Proof.
  induction s as [|c s IH]; [reflexivity|].
  simpl. rewrite (proj1 (lower_char_class c)), IH. reflexivity.
Qed.

Lemma drop_lower n : forall s, drop n (toLowerCase s) = toLowerCase (drop n s).
Proof.
  induction n as [|n IH]; intros [|c s]; try reflexivity. simpl. apply IH.
Qed.

Lemma close_len_lower s : close_len (toLowerCase s) = close_len s.
Proof.
  induction s as [|c s IH]; [reflexivity|].
  simpl. rewrite (proj2 (proj2 (lower_char_class c))), IH. reflexivity.
Qed.

Lemma paren_match_lower s : paren_match_len (toLowerCase s) = paren_match_len s.
Proof.
  unfold paren_match_len. rewrite space_run_lower, drop_lower.
  destruct (drop (space_run s) s) as [|c s1]; [reflexivity|].
  cbn [toLowerCase]. rewrite (proj1 (proj2 (lower_char_class c))).
  destruct (Ascii.eqb c "("); [|reflexivity].
  rewrite close_len_lower. destruct (close_len s1) as [n2|]; [|reflexivity].
  rewrite drop_lower, space_run_lower. reflexivity.
Qed.

Lemma strip_parens_from_lower s : forall k,
  strip_parens_from k (toLowerCase s) = toLowerCase (strip_parens_from k s).
Proof.
  induction s as [|c s IH]; intros k; [reflexivity|].
  change (toLowerCase (String c s)) with (String (lower_char c) (toLowerCase s)).
  cbn [strip_parens_from].
  change (String (lower_char c) (toLowerCase s)) with (toLowerCase (String c s)).
  rewrite paren_match_lower.
  destruct k as [|k]; [|apply IH].
  destruct (paren_match_len (String c s)) as [[|n]|];
    rewrite ?IH; reflexivity.
Qed.

Lemma norm_strip_parens_case a b :
  toLowerCase a = toLowerCase b ->
  norm a = norm b /\ norm (strip_parens a) = norm (strip_parens b).
Proof.
  intros H. unfold norm, strip_parens.
  rewrite <- !strip_parens_from_lower, H. split; reflexivity.
Qed.

(** X6. Resolution does not depend on the case of the schedule name:
    two names that are equal up to case hit the same entry and get the
    same logo, in every directory. *)
Theorem resolver_case_insensitive : forall (d : directory) (a b : string),
  toLowerCase a = toLowerCase b ->
  find_hit d a = find_hit d b /\ resolveLogo d a = resolveLogo d b.
Proof.
  intros d a b H. destruct (norm_strip_parens_case a b H) as [E1 E2].
  unfold resolveLogo, find_hit. rewrite E1, E2. split; reflexivity.
Qed.

Lemma resolver_case_insensitive_witness :
  resolveLogo (buildDirectory [team_miami]) "MIAMI (fl)"
  = resolveLogo (buildDirectory [team_miami]) "Miami (FL)".
Proof.
  apply (resolver_case_insensitive (buildDirectory [team_miami])
           "MIAMI (fl)" "Miami (FL)").
  reflexivity.
Defined.

(** ** Team directory *)

Lemma index_teams_app pre post d :
  index_teams (pre ++ post) d = index_teams post (index_teams pre d).
Proof. revert d. induction pre as [|t pre IH]; intros d; simpl; auto. Qed.

(** The school index changes only at the key of a truthy school name,
    the abbreviation index only at the key of a truthy abbreviation. *)
Lemma index_team_bySchool t d k :
  bySchool (index_team t d) !! k
  = if truthy (school t) && bool_decide (norm_of (school t) = k)
    then Some (entry_of t) else bySchool d !! k.
Proof.
  unfold index_team. cbn [bySchool].
  destruct (truthy (school t)); simpl; [|reflexivity].
  rewrite lookup_insert. case_bool_decide; case_decide; congruence.
Qed.

Lemma index_team_byAbbr t d k :
  byAbbr (index_team t d) !! k
  = if truthy (abbreviation t) && bool_decide (norm_of (abbreviation t) = k)
    then Some (entry_of t) else byAbbr d !! k.
Proof.
  unfold index_team. cbn [byAbbr].
  destruct (truthy (abbreviation t)); simpl; [|reflexivity].
  rewrite lookup_insert. case_bool_decide; case_decide; congruence.
Qed.

Lemma index_teams_bySchool_other ts : forall d k,
  (forall t, t ∈ ts -> truthy (school t) = true -> norm_of (school t) <> k) ->
  bySchool (index_teams ts d) !! k = bySchool d !! k.
Proof.
  induction ts as [|t ts IH]; intros d k H; simpl; [reflexivity|].
  rewrite IH by (intros t' Ht'; apply H; right; exact Ht').
  rewrite index_team_bySchool.
  destruct (truthy (school t)) eqn:Ht; [|reflexivity]. simpl.
  rewrite bool_decide_eq_false_2; [reflexivity|].
  apply H; [left|exact Ht].
Qed.

Lemma index_teams_byAbbr_other ts : forall d k,
  (forall t, t ∈ ts -> truthy (abbreviation t) = true ->
     norm_of (abbreviation t) <> k) ->
  byAbbr (index_teams ts d) !! k = byAbbr d !! k.
Proof.
  induction ts as [|t ts IH]; intros d k H; simpl; [reflexivity|].
  rewrite IH by (intros t' Ht'; apply H; right; exact Ht').
  rewrite index_team_byAbbr.
  destruct (truthy (abbreviation t)) eqn:Ht; [|reflexivity]. simpl.
  rewrite bool_decide_eq_false_2; [reflexivity|].
  apply H; [left|exact Ht].
Qed.

Lemma bySchool_last pre t post d :
  truthy (school t) = true ->
  (forall t', t' ∈ post -> truthy (school t') = true ->
     norm_of (school t') <> norm_of (school t)) ->
  bySchool (index_teams (pre ++ t :: post) d) !! norm_of (school t)
  = Some (entry_of t).
Proof.
  intros Ht Hpost. rewrite index_teams_app. cbn [index_teams].
  rewrite index_teams_bySchool_other by exact Hpost.
  rewrite index_team_bySchool, Ht. simpl.
  rewrite bool_decide_eq_true_2; reflexivity.
Qed.

(** X7. Last write wins in the directory: a team with a school name is
    found in the school index under the key of that name, unless a later
    team has a school name with the same key; the same holds for the
    abbreviation index. *)
Theorem directory_last_write_wins :
  forall (pre post : list team_meta) (t : team_meta),
    (truthy (school t) = true ->
     (forall t', t' ∈ post -> truthy (school t') = true ->
        norm_of (school t') <> norm_of (school t)) ->
     bySchool (buildDirectory (pre ++ t :: post)) !! norm_of (school t)
     = Some (entry_of t))
    /\ (truthy (abbreviation t) = true ->
        (forall t', t' ∈ post -> truthy (abbreviation t') = true ->
           norm_of (abbreviation t') <> norm_of (abbreviation t)) ->
        byAbbr (buildDirectory (pre ++ t :: post)) !! norm_of (abbreviation t)
        = Some (entry_of t)).
Proof.
  intros pre post t. unfold buildDirectory. split.
  - apply bySchool_last.
  - intros Ht Hpost. rewrite index_teams_app. cbn [index_teams].
    rewrite index_teams_byAbbr_other by exact Hpost.
    rewrite index_team_byAbbr, Ht. simpl.
    rewrite bool_decide_eq_true_2; reflexivity.
Qed.

Lemma directory_last_write_wins_witness :
  bySchool (buildDirectory ([team_rice_no_logo] ++ team_miami :: []))
    !! norm_of (school team_miami) = Some (entry_of team_miami)
  /\ byAbbr (buildDirectory ([team_rice_no_logo] ++ team_miami :: []))
       !! norm_of (abbreviation team_miami) = Some (entry_of team_miami).
Proof.
  destruct (directory_last_write_wins [team_rice_no_logo] [] team_miami)
    as [H1 H2].
  split.
  - apply H1; [reflexivity|].
    intros t' Ht'. apply not_elem_of_nil in Ht'. contradiction.
  - apply H2; [reflexivity|].
    intros t' Ht'. apply not_elem_of_nil in Ht'. contradiction.
Defined.

Lemma set_alternates_from e alts : forall m k e',
  set_alternates e alts m !! k = Some e' -> e' = e \/ m !! k = Some e'.
Proof.
  induction alts as [|a alts IH]; intros m k e' H; simpl in H; [auto|].
  apply IH in H as [H|H]; [auto|].
  rewrite lookup_insert in H. case_decide; [left; congruence | auto].
Qed.

Lemma index_team_holds t d e :
  holds (index_team t d) e -> e = entry_of t \/ holds d e.
Proof.
  intros [k H]. unfold index_team in H. cbn [bySchool byAbbr byAlt] in H.
  destruct H as [H|[H|H]].
  - destruct (truthy (school t)).
    + rewrite lookup_insert in H. case_decide; [left; congruence|].
      right. exists k. auto.
    + right. exists k. auto.
  - destruct (truthy (abbreviation t)).
    + rewrite lookup_insert in H. case_decide; [left; congruence|].
      right. exists k. auto.
    + right. exists k. auto.
  - assert (H' : set_alternates (entry_of t) (e_alternateNames (entry_of t))
                   (byAlt d) !! k = Some e \/ e = entry_of t).
    { destruct (truthy (mascot t)); [|auto].
      rewrite lookup_insert in H. case_decide; [right; congruence | auto]. }
    destruct H' as [H'|H']; [|auto].
    apply set_alternates_from in H' as [H'|H']; [auto|].
    right. exists k. auto.
Qed.

Lemma index_teams_holds ts : forall d e,
  holds (index_teams ts d) e -> (exists t, t ∈ ts /\ e = entry_of t) \/ holds d e.
Proof.
  induction ts as [|t ts IH]; intros d e H; simpl in H; [auto|].
  apply IH in H as [(t' & Ht' & E)|H].
  - left. exists t'. split; [right; exact Ht'|exact E].
  - apply index_team_holds in H as [H|H]; [|auto].
    left. exists t. split; [left|exact H].
Qed.

Lemma buildDirectory_holds ts e :
  holds (buildDirectory ts) e -> exists t, t ∈ ts /\ e = entry_of t.
Proof.
  intros H. apply index_teams_holds in H as [H|[k H]]; [exact H|].
  cbn in H. rewrite !lookup_empty in H. intuition discriminate.
Qed.

Lemma find_hit_holds d raw e : find_hit d raw = Some e -> holds d e.
Proof.
  unfold find_hit, hit_or. intros H.
  destruct (bySchool d !! norm raw) eqn:E1; [exists (norm raw); left; congruence|].
  destruct (byAlt d !! norm raw) eqn:E2;
    [exists (norm raw); right; right; congruence|].
  destruct (bySchool d !! norm (strip_parens raw)) eqn:E3;
    [exists (norm (strip_parens raw)); left; congruence|].
  exists (norm raw). right. left. exact H.
Qed.

Lemma resolveLogo_from ts raw :
  resolveLogo (buildDirectory ts) raw = Null
  \/ exists t, t ∈ ts /\ resolveLogo (buildDirectory ts) raw = primaryLogo t
               /\ truthy (primaryLogo t) = true.
Proof.
  unfold resolveLogo.
  destruct (find_hit (buildDirectory ts) raw) as [e|] eqn:E; [|left; reflexivity].
  apply find_hit_holds, buildDirectory_holds in E as (t & Ht & ->).
  simpl. destruct (truthy (primaryLogo t)) eqn:Hl; [|left; reflexivity].
  right. exists t. auto.
Qed.

(** X8. The directory invents nothing: every entry of the three indexes
    is the entry of a team of the metadata list, so a resolved logo is
    either null or the non-empty primary logo of one of those teams; with
    an empty list every name resolves to null. *)
Theorem directory_entries_from_teams :
  forall (teamsMeta : list team_meta) (raw : string),
    (forall e, holds (buildDirectory teamsMeta) e ->
       exists t, t ∈ teamsMeta /\ e = entry_of t)
    /\ (resolveLogo (buildDirectory teamsMeta) raw = Null
        \/ exists t, t ∈ teamsMeta
             /\ resolveLogo (buildDirectory teamsMeta) raw = primaryLogo t
             /\ truthy (primaryLogo t) = true)
    /\ resolveLogo (buildDirectory []) raw = Null.
Proof.
  intros teamsMeta raw. split; [|split].
  - intros e. apply buildDirectory_holds.
  - apply resolveLogo_from.
  - destruct (resolveLogo_from [] raw) as [H|(t & Ht & _)]; [exact H|].
    apply not_elem_of_nil in Ht. contradiction.
Qed.


(** ** Logo resolver *)

Example resolve_miami_fl :
  resolveLogo (buildDirectory [team_miami; team_rice_no_logo]) "Miami (FL)"
  = Str "miami.png".
Proof. vm_compute. reflexivity. Qed.

Example resolve_by_mascot :
  resolveLogo (buildDirectory [team_miami; team_rice_no_logo]) "MIAMI hurricanes"
  = Str "miami.png".
Proof. vm_compute. reflexivity. Qed.

Example resolve_by_abbreviation :
  resolveLogo (buildDirectory [team_miami; team_rice_no_logo]) "mia"
  = Str "miami.png".
Proof. vm_compute. reflexivity. Qed.

Example resolve_no_logo :
  resolveLogo (buildDirectory [team_miami; team_rice_no_logo]) "Rice" = Null.
Proof. vm_compute. reflexivity. Qed.

Example strip_suffix_miami : strip_paren_suffix "Miami (FL)" = "Miami".
Proof. reflexivity. Qed.

Lemma hit_or_first_hit (a : option entry) (rest : list (option entry)) :
  hit_or a (first_hit rest) = first_hit (a :: rest).
Proof. destruct a; reflexivity. Qed.

Lemma find_hit_chain d raw :
  find_hit d raw
  = first_hit [ bySchool d !! norm raw; byAlt d !! norm raw;
                bySchool d !! norm (strip_parens raw); byAbbr d !! norm raw ].
Proof.
  unfold find_hit. rewrite <- !hit_or_first_hit. simpl.
  destruct (byAbbr d !! norm raw); reflexivity.
Qed.

(** *** Every parenthesised group is stripped *)

Lemma drop_nil n : drop n "" = "".
Proof. destruct n; reflexivity. Qed.

(** Skipping [k] characters is dropping them. *)
Lemma strip_parens_from_drop s : forall k,
  strip_parens_from k s = strip_parens_from 0 (drop k s).
Proof.
  induction s as [|c s IH]; intros k.
  - rewrite drop_nil. reflexivity.
  - destruct k as [|k]; [reflexivity|]. simpl. apply IH.
Qed.

(** A match at the head of the string is dropped whole. *)
Lemma strip_parens_match s n :
  paren_match_len s = Some n ->
  strip_parens_from 0 s = strip_parens_from 0 (drop n s).
Proof.
  destruct s as [|c s]; [discriminate|].
  intros H. cbn [strip_parens_from]. rewrite H.
  destruct n as [|n].
  - exfalso. unfold paren_match_len in H.
    destruct (drop _ _) as [|c1 s1]; [discriminate|].
    destruct (Ascii.eqb c1 "("); [|discriminate].
    destruct (close_len s1); [|discriminate].
    injection H as H. lia.
  - simpl. apply strip_parens_from_drop.
Qed.

Lemma drop_cons n c s : drop (S n) (String c s) = drop n s.
Proof. reflexivity. Qed.

Lemma drop_drop n : forall m s, drop n (drop m s) = drop (m + n) s.
Proof.
  intros m. induction m as [|m IH]; intros s; [reflexivity|].
  destruct s as [|c s]; [rewrite !drop_nil; reflexivity|]. simpl. apply IH.
Qed.

Lemma drop_append a b : drop (String.length a) (a ++ b) = b.
Proof. induction a as [|c a IH]; simpl; auto. Qed.

Lemma space_run_all_space a c b :
  all_space a = true -> is_space c = false ->
  space_run (a ++ String c b) = String.length a.
Proof.
  induction a as [|x a IH]; simpl; intros Ha Hc.
  - rewrite Hc. reflexivity.
  - apply andb_prop in Ha as [Hx Ha]. rewrite Hx, IH by assumption. reflexivity.
Qed.

(** The group that follows white space is matched from the start of the
    white space to the end of the white space behind it. *)
Lemma paren_match_group_at a inner b :
  all_space a = true -> without ")" inner = true ->
  paren_match_len (a ++ String "(" (inner ++ String ")" b))
  = Some (String.length a + 1 + S (String.length inner) + space_run b).
Proof.
  intros Ha Hi. unfold paren_match_len.
  rewrite space_run_all_space by (assumption || reflexivity).
  rewrite drop_append.
  change (Ascii.eqb "(" "(") with true. cbv iota.
  destruct (close_len_inner inner b Hi) as [-> ->]. reflexivity.
Qed.

Lemma paren_match_before_group_at a inner b n :
  without "(" a = true -> without ")" inner = true ->
  paren_match_len (a ++ String "(" (inner ++ String ")" b)) = Some n ->
  all_space a = true.
Proof.
  intros Ha Hi. revert n. induction a as [|c a IH]; intros n; [reflexivity|].
  simpl in Ha. apply andb_prop in Ha as [Hc Ha]. apply negb_true_iff in Hc.
  rewrite append_cons. destruct (is_space c) eqn:Hs.
  - rewrite paren_match_space by exact Hs.
    destruct (paren_match_len _) as [k|] eqn:E; [|discriminate].
    intros _. simpl. rewrite Hs. apply (IH Ha k eq_refl).
  - rewrite paren_match_other by assumption. discriminate.
Qed.

(** White space in front of the rest does not matter for the key. *)
Lemma norm_strip_leading_space b :
  norm (strip_parens_from 0 (drop (space_run b) b))
  = norm (strip_parens_from 0 b).
Proof.
  induction b as [|c b IH]; [reflexivity|].
  cbn [space_run]. destruct (is_space c) eqn:Hs; [|reflexivity].
  cbn [drop]. rewrite IH.
  destruct (paren_match_len (String c b)) as [n|] eqn:E.
  - rewrite (strip_parens_match _ _ E).
    rewrite paren_match_space in E by exact Hs.
    destruct (paren_match_len b) as [m|] eqn:Eb; [|discriminate].
    injection E as <-. rewrite (strip_parens_match _ _ Eb). reflexivity.
  - cbn [strip_parens_from]. rewrite E.
    rewrite norm_cons, norm_space by exact Hs. reflexivity.
Qed.

(** Stripping is compositional: in front of the first group nothing is
    stripped but white space, the group goes, and the rest is stripped
    in the same way. *)
Lemma norm_strip_parens_group a inner b :
  without "(" a = true -> without ")" inner = true ->
  norm (strip_parens (a ++ String "(" (inner ++ String ")" b)))
  = (norm a ++ norm (strip_parens b))%string.
Proof.
  intros Ha Hi. unfold strip_parens. induction a as [|c a IH].
  - pose proof (paren_match_group_at "" inner b eq_refl Hi) as M.
    rewrite append_nil in *.
    rewrite (strip_parens_match _ _ M).
    replace (String.length "" + 1 + S (String.length inner) + space_run b)
      with (S (S (String.length inner)) + space_run b) by (simpl; lia).
    rewrite <- drop_drop, drop_cons.
    destruct (close_len_inner inner b Hi) as [_ ->].
    apply norm_strip_leading_space.
  - assert (Ha' : without "(" a = true)
      by (simpl in Ha; apply andb_prop in Ha; tauto).
    rewrite append_cons.
    destruct (paren_match_len (String c (a ++ String "(" (inner ++ String ")" b))))
      as [n|] eqn:E.
    + rewrite <- append_cons in E.
      pose proof (paren_match_before_group_at _ _ _ _ Ha Hi E) as Hsp.
      rewrite (paren_match_group_at _ inner b Hsp Hi) in E. injection E as <-.
      rewrite <- append_cons.
      rewrite (strip_parens_match _ _ (paren_match_group_at _ inner b Hsp Hi)).
      replace (String.length (String c a) + 1 + S (String.length inner) + space_run b)
        with (String.length (String c a) + (S (S (String.length inner)) + space_run b))
        by lia.
      rewrite <- drop_drop, drop_append, <- drop_drop, drop_cons.
      destruct (close_len_inner inner b Hi) as [_ ->].
      rewrite norm_strip_leading_space, (norm_all_space _ Hsp). reflexivity.
    + cbn [strip_parens_from]. rewrite E.
      rewrite (norm_cons c a), norm_cons, (IH Ha'). 
      symmetry. apply append_assoc_s.
Qed.

Example resolve_group_in_the_middle :
  strip_parens "S (x) T" = "ST"
  /\ resolveLogo (buildDirectory [team_ST]) "S (x) T" = Str "st.png".
Proof. split; vm_compute; reflexivity. Qed.

(** C4, as amended.  For every raw team name and every directory the
    resolver tries four lookups in a fixed order: the normalised name in
    the school index, the normalised name in the alternate-name index,
    the normalised name with every parenthesised group (and the white
    space around it) stripped, wherever the group stands, in the school
    index, and the normalised name in the abbreviation index.  The result
    comes from the first lookup that hits: the logo of that entry when it
    is not empty, else null. *)
Theorem resolver_fallback_chain : forall (d : directory) (raw : string),
  find_hit d raw
  = first_hit [ bySchool d !! norm raw;
                byAlt d !! norm raw;
                bySchool d !! norm (strip_parens raw);
                byAbbr d !! norm raw ]
  /\ resolveLogo d raw
     = match first_hit [ bySchool d !! norm raw;
                         byAlt d !! norm raw;
                         bySchool d !! norm (strip_parens raw);
                         byAbbr d !! norm raw ] with
       | Some e => if truthy (e_logo e) then e_logo e else Null
       | None => Null
       end
  /\ (forall a inner b : string,
        without "(" a = true -> without ")" inner = true ->
        raw = (a ++ String "(" (inner ++ String ")" b))%string ->
        norm (strip_parens raw) = (norm a ++ norm (strip_parens b))%string)
  /\ (without "(" raw = true \/ without ")" raw = true ->
      strip_parens raw = raw)
  /\ resolveLogo (buildDirectory [team_miami; team_rice_no_logo]) "Miami (FL)"
     = Str "miami.png"
  /\ find_hit (buildDirectory [team_ST]) "S (x) T" = Some (entry_of team_ST).
Proof.
  intros d raw. pose proof (find_hit_chain d raw) as E.
  split; [exact E|]. split; [|split; [|split; [|split]]].
  - unfold resolveLogo. rewrite E. reflexivity.
  - intros a inner b Ha Hi ->. apply norm_strip_parens_group; assumption.
  - apply strip_parens_id.
  - vm_compute. reflexivity.
  - vm_compute. reflexivity.
Qed.

Lemma resolver_fallback_chain_witness :
  norm (strip_parens "Miami (FL)") = (norm "Miami " ++ norm (strip_parens ""))%string
  /\ strip_parens "Tulsa" = "Tulsa".
Proof.
  split.
  - apply (proj1 (proj2 (proj2 (resolver_fallback_chain empty_directory "Miami (FL)")))
             "Miami " "FL" ""); reflexivity.
  - apply (proj1 (proj2 (proj2 (proj2 (resolver_fallback_chain empty_directory "Tulsa"))))).
    left. reflexivity.
Defined.

(** C4, as stated, fails: the name "S (x) T" has no parenthesised
    suffix, so the chain of the specification looks up the key "sxt" three times
    and the abbreviation index once, and finds nothing; the code strips
    the group in the middle and finds the school "ST". *)
Lemma group_in_the_middle_is_stripped :
  strip_paren_suffix "S (x) T" = "S (x) T"
  /\ find_hit_suffix (buildDirectory [team_ST]) "S (x) T" = None
  /\ find_hit (buildDirectory [team_ST]) "S (x) T" = Some (entry_of team_ST)
  /\ resolveLogo (buildDirectory [team_ST]) "S (x) T" = Str "st.png".
Proof. repeat split; vm_compute; reflexivity. Qed.

(** ** The logo map *)

Example build_logos_sample :
  own (buildTeamLogosMap ["Miami (FL)"; "Tulsa"] [team_miami; team_rice_no_logo])
  = {[ "Miami (FL)" := Str "miami.png"; "Tulsa" := Null;
       "Miami" := Str "miami.png"; "Rice" := Null ]}.
Proof. vm_compute. reflexivity. Qed.

(** A schedule name [__proto__] makes no key: with a logo nothing
    happens, and with [null] the object loses its prototype. *)
Example build_logos_proto :
  buildTeamLogosMap ["__proto__"] [team_miami]
  = {| own := {[ "Miami" := Str "miami.png" ]}; proto := false |}.
Proof. vm_compute. reflexivity. Qed.

(** A school named like an inherited property is not added. *)
Example build_logos_constructor :
  buildTeamLogosMap [] [team_named "constructor" (Some [Str "c.png"])] = ∅.
Proof. vm_compute. reflexivity. Qed.

(** *** Assignment *)

Lemma plain_lookup_own {V : Type} (o : plain V) k : o !! k = own o !! k.
Proof. reflexivity. Qed.

Lemma inherited_proto k : inherited k = false -> k <> "__proto__".
Proof. intros H ->. discriminate. Qed.

Lemma assign_plain k v (o : plain ostr) :
  k <> "__proto__" ->
  assign k v o = {| own := <[k := v]> (own o); proto := proto o |}.
Proof.
  intros H. unfold assign.
  destruct (String.eqb_spec k "__proto__"); [contradiction|reflexivity].
Qed.

Lemma assign_lookup_eq k v (o : plain ostr) :
  k <> "__proto__" -> assign k v o !! k = Some v.
Proof.
  intros H. rewrite assign_plain by exact H.
  rewrite plain_lookup_own. simpl. apply lookup_insert_eq.
Qed.

Lemma assign_lookup_ne k j v (o : plain ostr) :
  k <> j -> assign k v o !! j = o !! j.
Proof.
  intros H. unfold assign. rewrite !plain_lookup_own.
  destruct (String.eqb k "__proto__" && proto o).
  - destruct v; reflexivity.
  - simpl. apply lookup_insert_ne, H.
Qed.

Lemma assign_from k j v x (o : plain ostr) :
  assign k v o !! j = Some x -> (k = j /\ x = v) \/ o !! j = Some x.
Proof.
  unfold assign. rewrite !plain_lookup_own.
  destruct (String.eqb k "__proto__" && proto o).
  - destruct v; auto.
  - simpl. rewrite lookup_insert. case_decide; [|auto].
    intros [= <-]. auto.
Qed.

Lemma assign_keeps k j v (o : plain ostr) :
  is_Some (o !! j) -> j <> "__proto__" \/ k <> j -> is_Some (assign k v o !! j).
Proof.
  intros H Hj. destruct (decide (k = j)) as [->|Hne].
  - rewrite assign_lookup_eq; [eauto|]. destruct Hj; congruence.
  - rewrite assign_lookup_ne by exact Hne. exact H.
Qed.

(** An own property is never removed (under [__proto__] it can only be
    overwritten once the prototype is gone). *)
Lemma assign_keeps_any k j v (o : plain ostr) :
  is_Some (o !! j) -> is_Some (assign k v o !! j).
Proof.
  intros H. unfold assign. rewrite !plain_lookup_own in *.
  destruct (String.eqb k "__proto__" && proto o).
  - destruct v; exact H.
  - simpl. rewrite lookup_insert. case_decide; eauto.
Qed.

(** *** The first pass *)

Lemma resolve_names_lookup d names : forall (m : plain ostr) n,
  n <> "__proto__" ->
  resolve_names d names m !! n
  = if decide (n ∈ names) then Some (resolveLogo d n) else m !! n.
Proof.
  induction names as [|x names IH]; intros m n Hn; cbn [resolve_names].
  - destruct (decide (n ∈ [])) as [H|H]; [|reflexivity].
    apply not_elem_of_nil in H. contradiction.
  - rewrite IH by exact Hn.
    destruct (decide (n ∈ x :: names)) as [[->|H]%elem_of_cons|H].
    + destruct (decide (x ∈ names)); [reflexivity|].
      apply assign_lookup_eq, Hn.
    + rewrite decide_True by exact H. reflexivity.
    + apply not_elem_of_cons in H as [Hne Hnin].
      rewrite decide_False by exact Hnin.
      apply assign_lookup_ne. congruence.
Qed.

Lemma resolve_names_from ts names : forall (m : plain ostr) k v,
  resolve_names (buildDirectory ts) names m !! k = Some v ->
  logo_from ts v \/ m !! k = Some v.
Proof.
  induction names as [|x names IH]; intros m k v H; cbn [resolve_names] in H;
    [auto|].
  apply IH in H as [H|H]; [auto|].
  apply assign_from in H as [[_ ->]|H]; [|auto].
  left. destruct (resolveLogo_from ts x) as [E|(t & Ht & E & _)].
  - left. exact E.
  - right. exists t. auto.
Qed.

Lemma resolve_names_keeps d names : forall (m : plain ostr) k,
  is_Some (m !! k) -> is_Some (resolve_names d names m !! k).
Proof.
  induction names as [|x names IH]; intros m k H; cbn [resolve_names];
    [exact H|].
  apply IH, assign_keeps_any, H.
Qed.

(** *** The supplementary pass *)

Lemma truthy_Str v : truthy v = true -> exists s, v = Str s /\ s <> "".
Proof.
  destruct v as [| |s]; simpl; try discriminate.
  intros H. exists s. split; [reflexivity|].
  intros ->. discriminate.
Qed.

Lemma truthy_nonempty s : s <> "" -> truthy (Str s) = true.
Proof.
  intros H. unfold truthy.
  destruct (String.eqb_spec s ""); [contradiction|reflexivity].
Qed.

Lemma no_logo_at_plain (m : plain ostr) k :
  inherited k = false ->
  no_logo_at m k = match m !! k with
                   | Some v => negb (truthy v)
                   | None => true
                   end.
Proof.
  intros H. unfold no_logo_at. rewrite plain_lookup_own, H, andb_false_r.
  reflexivity.
Qed.

Lemma no_logo_at_truthy (m : plain ostr) k v :
  m !! k = Some v -> truthy v = true -> no_logo_at m k = false.
Proof.
  unfold no_logo_at. rewrite plain_lookup_own. intros -> ->. reflexivity.
Qed.

(** What the supplementary pass does to one key, one team at a time. *)
Lemma add_school_lookup t (m : plain ostr) k :
  k <> "__proto__" ->
  add_school t m !! k
  = if truthy (school t) && bool_decide (to_string (school t) = k) && no_logo_at m k
    then Some (primaryLogo t) else m !! k.
Proof.
  intros Hk. unfold add_school.
  destruct (truthy (school t)); simpl; [|reflexivity].
  destruct (decide (to_string (school t) = k)) as [E|Hne].
  - rewrite (bool_decide_eq_true_2 _ E), E. simpl.
    destruct (no_logo_at m k); [|reflexivity].
    apply assign_lookup_eq, Hk.
  - rewrite (bool_decide_eq_false_2 _ Hne). simpl.
    destruct (no_logo_at m (to_string (school t))); [|reflexivity].
    apply assign_lookup_ne, Hne.
Qed.

Lemma add_school_from t (m : plain ostr) k v :
  add_school t m !! k = Some v ->
  m !! k = Some v
  \/ (school t = Str k /\ k <> "" /\ v = primaryLogo t
      /\ no_logo_at m k = true).
Proof.
  unfold add_school.
  destruct (truthy (school t)) eqn:Ht; simpl; [|auto].
  destruct (no_logo_at m (to_string (school t))) eqn:E; [|auto].
  intros H. apply assign_from in H as [[Hk Hv]|H]; [|auto].
  right. apply truthy_Str in Ht as (s & Hs & Hne).
  rewrite Hs in Hk, E. simpl in Hk, E. subst s v. auto.
Qed.

Lemma add_school_keeps t (m : plain ostr) k :
  is_Some (m !! k) -> is_Some (add_school t m !! k).
Proof.
  intros H. unfold add_school. destruct (_ && _); [|exact H].
  apply assign_keeps_any, H.
Qed.

Lemma add_schools_keeps ts : forall (m : plain ostr) k,
  is_Some (m !! k) -> is_Some (add_schools ts m !! k).
Proof.
  induction ts as [|t ts IH]; intros m k H; simpl; [exact H|].
  apply IH, add_school_keeps, H.
Qed.


(** An entry that already holds a logo survives the pass. *)
Lemma add_school_keeps_logo t (m : plain ostr) k v :
  m !! k = Some v -> truthy v = true -> add_school t m !! k = Some v.
Proof.
  intros H Hv. unfold add_school.
  destruct (truthy (school t)); simpl; [|exact H].
  destruct (decide (to_string (school t) = k)) as [E|Hne].
  - rewrite E, (no_logo_at_truthy m k v H Hv). exact H.
  - destruct (no_logo_at m (to_string (school t))); [|exact H].
    rewrite assign_lookup_ne by exact Hne. exact H.
Qed.

Lemma add_schools_keeps_logo ts : forall (m : plain ostr) k v,
  m !! k = Some v -> truthy v = true -> add_schools ts m !! k = Some v.
Proof.
  induction ts as [|t ts IH]; intros m k v H Hv; simpl; [exact H|].
  apply IH; [|exact Hv]. apply add_school_keeps_logo; assumption.
Qed.



Lemma add_schools_from ts : forall (m : plain ostr) k v,
  add_schools ts m !! k = Some v ->
  m !! k = Some v
  \/ exists t, t ∈ ts /\ school t = Str k /\ k <> "" /\ v = primaryLogo t.
Proof.
  induction ts as [|t ts IH]; intros m k v H; simpl in H; [auto|].
  apply IH in H as [H|(t' & Ht' & H)].
  - apply add_school_from in H as [H|(Hs & Hk & Hv & _)]; [auto|].
    right. exists t. split; [left|auto].
  - right. exists t'. split; [right; exact Ht'|exact H].
Qed.

(** *** Names that are not strings *)

Lemma resolve_names_js_strings d names : forall m,
  resolve_names_js d (map Str names) m = Some (resolve_names d names m).
Proof.
  induction names as [|n names IH]; intros m; simpl; [reflexivity|]. apply IH.
Qed.

Lemma resolve_name_js_None d nm m :
  resolve_name_js d nm m = None <->
  (forall s, nm <> Str s) /\ bySchool d !! "" = None /\ byAlt d !! "" = None.
Proof.
  assert (Hh : forall a b : option entry,
             hit_or a b = None <-> a = None /\ b = None).
  { intros [a|] [b|]; simpl; intuition congruence. }
  destruct nm as [| |s]; simpl.
  - change (norm_of Undef) with "".
    destruct (hit_or (bySchool d !! "") (byAlt d !! "")) eqn:E.
    + split; [discriminate|]. intros (_ & H1 & H2).
      assert (hit_or (bySchool d !! "") (byAlt d !! "") = None)
        by (apply Hh; auto). congruence.
    + apply Hh in E. split; [|reflexivity]. intros _. split; [discriminate|exact E].
  - change (norm_of Null) with "".
    destruct (hit_or (bySchool d !! "") (byAlt d !! "")) eqn:E.
    + split; [discriminate|]. intros (_ & H1 & H2).
      assert (hit_or (bySchool d !! "") (byAlt d !! "") = None)
        by (apply Hh; auto). congruence.
    + apply Hh in E. split; [|reflexivity]. intros _. split; [discriminate|exact E].
  - split; [discriminate|]. intros [H _]. exfalso. apply (H s). reflexivity.
Qed.

Lemma resolve_names_js_None d names : forall m,
  resolve_names_js d names m = None <->
  (exists nm, nm ∈ names /\ forall s, nm <> Str s)
  /\ bySchool d !! "" = None /\ byAlt d !! "" = None.
Proof.
  induction names as [|nm names IH]; intros m; simpl.
  - split; [discriminate|]. intros [(nm & H & _) _].
    apply not_elem_of_nil in H. contradiction.
  - destruct (resolve_name_js d nm m) as [m'|] eqn:E.
    + rewrite IH. split.
      * intros [(x & Hx & Hs) Hd]. split; [|exact Hd].
        exists x. split; [right; exact Hx|exact Hs].
      * intros [(x & Hx & Hs) Hd]. split; [|exact Hd].
        apply elem_of_cons in Hx as [->|Hx]; [|eauto].
        assert (resolve_name_js d nm m = None) as Hn
          by (apply resolve_name_js_None; tauto).
        congruence.
    + apply resolve_name_js_None in E as [Hs Hd]. split; [|reflexivity].
      intros _. split; [|exact Hd]. exists nm. split; [left|exact Hs].
Qed.

Lemma buildTeamLogosMap_js_None names ts :
  buildTeamLogosMap_js names ts = None <->
  (exists nm, nm ∈ names /\ forall s, nm <> Str s)
  /\ bySchool (buildDirectory ts) !! "" = None
  /\ byAlt (buildDirectory ts) !! "" = None.
Proof.
  unfold buildTeamLogosMap_js.
  rewrite <- (resolve_names_js_None _ names ∅).
  destruct (resolve_names_js _ names ∅); split; congruence.
Qed.

(** *** The resolution pass and the supplementary pass *)







(** *** Keys and values of the logo map *)

Lemma resolve_names_key_from d names : forall (m : plain ostr) k,
  is_Some (resolve_names d names m !! k) -> k ∈ names \/ is_Some (m !! k).
Proof.
  induction names as [|n names IH]; intros m k H; simpl in H; [auto|].
  apply IH in H as [H|[x H]].
  - left. right. exact H.
  - apply assign_from in H as [[-> _]|H]; [left; left|eauto].
Qed.

Lemma add_school_key t (m : plain ostr) k :
  school t = Str k -> k <> "" -> inherited k = false ->
  is_Some (add_school t m !! k).
Proof.
  intros Hs Hne Hi.
  rewrite add_school_lookup by (apply inherited_proto, Hi).
  rewrite Hs, truthy_nonempty by exact Hne. simpl.
  rewrite bool_decide_eq_true_2 by reflexivity. simpl.
  rewrite no_logo_at_plain by exact Hi.
  destruct (m !! k) as [v|] eqn:E; [|eauto].
  destruct (negb (truthy v)); eauto.
Qed.

Lemma add_schools_key ts : forall (m : plain ostr) t k,
  t ∈ ts -> school t = Str k -> k <> "" -> inherited k = false ->
  is_Some (add_schools ts m !! k).
Proof.
  induction ts as [|t' ts IH]; intros m t k Ht Hs Hne Hi; simpl.
  - apply not_elem_of_nil in Ht. contradiction.
  - apply elem_of_cons in Ht as [->|Ht].
    + apply add_schools_keeps, add_school_key; assumption.
    + eapply IH; eassumption.
Qed.

(** X9. The keys of the logo map are schedule names and non-empty
    school names of the metadata: no other key is made.  Every schedule
    name other than [__proto__] is a key, and so is every non-empty
    school name that is not a property name of [Object.prototype]. *)
Theorem logo_map_keys :
  forall (fbsTeams : list string) (teamsMeta : list team_meta) (k : string),
    (is_Some (buildTeamLogosMap fbsTeams teamsMeta !! k) ->
     k ∈ fbsTeams \/ exists t, t ∈ teamsMeta /\ school t = Str k /\ k <> "")
    /\ (k ∈ fbsTeams -> k <> "__proto__" ->
        is_Some (buildTeamLogosMap fbsTeams teamsMeta !! k))
    /\ (forall t, t ∈ teamsMeta -> school t = Str k -> k <> "" ->
          inherited k = false ->
          is_Some (buildTeamLogosMap fbsTeams teamsMeta !! k)).
Proof.
  intros fbsTeams teamsMeta k. unfold buildTeamLogosMap. repeat split.
  - intros [v H].
    apply add_schools_from in H as [H|(t & Ht & Hs & Hk & _)]; [|eauto].
    assert (Hr : is_Some (resolve_names (buildDirectory teamsMeta) fbsTeams ∅ !! k))
      by eauto.
    apply resolve_names_key_from in Hr as [Hr|[x Hr]]; [auto|].
    rewrite plain_lookup_own in Hr. simpl in Hr.
    rewrite lookup_empty in Hr. discriminate.
  - intros Hin Hk. apply add_schools_keeps.
    rewrite resolve_names_lookup, decide_True by assumption. eauto.
  - intros t Ht Hs Hne Hi. eapply add_schools_key; eassumption.
Qed.

Lemma logo_map_keys_witness :
  is_Some (buildTeamLogosMap ["Tulsa"] [team_miami] !! "Tulsa")
  /\ is_Some (buildTeamLogosMap ["Tulsa"] [team_miami] !! "Miami").
Proof.
  destruct (logo_map_keys ["Tulsa"] [team_miami] "Tulsa") as (_ & H2 & _).
  destruct (logo_map_keys ["Tulsa"] [team_miami] "Miami") as (_ & _ & H3).
  split.
  - apply H2; [left|discriminate].
  - apply (H3 team_miami); [left|reflexivity|discriminate|reflexivity].
Defined.

(** X10. Every value of the logo map is null or the primary logo of a
    team of the metadata list: the map holds no logo from anywhere else. *)
Theorem logo_map_values :
  forall (fbsTeams : list string) (teamsMeta : list team_meta)
         (k : string) (v : ostr),
    buildTeamLogosMap fbsTeams teamsMeta !! k = Some v ->
    v = Null \/ exists t, t ∈ teamsMeta /\ v = primaryLogo t.
Proof.
  intros fbsTeams teamsMeta k v H. unfold buildTeamLogosMap in H.
  apply add_schools_from in H as [H|(t & Ht & _ & _ & Hv)].
  - apply resolve_names_from in H as [H|H]; [exact H|].
    rewrite plain_lookup_own in H. simpl in H.
    rewrite lookup_empty in H. discriminate.
  - right. eauto.
Qed.

Lemma logo_map_values_witness :
  Str "miami.png" = Null
  \/ exists t, t ∈ [team_miami; team_rice_no_logo] /\ Str "miami.png" = primaryLogo t.
Proof.
  apply (logo_map_values ["Miami (FL)"; "Tulsa"] [team_miami; team_rice_no_logo]
           "Miami (FL)").
  vm_compute. reflexivity.
Defined.

(** X11. A team whose school name is on the list of names and is not
    [__proto__], whose primary logo is not empty, and whose key no later
    team shares, is mapped to its own primary logo under its school name.
    This is the case of the [/projections] and [/stats] routes, where the
    names are the school names. *)
Theorem school_resolves_to_own_logo :
  forall (fbsTeams : list string) (pre post : list team_meta)
         (t : team_meta) (s : string),
    school t = Str s -> s <> "" -> s <> "__proto__" ->
    truthy (primaryLogo t) = true ->
    (forall t', t' ∈ post -> truthy (school t') = true ->
       norm_of (school t') <> norm s) ->
    s ∈ fbsTeams ->
    buildTeamLogosMap fbsTeams (pre ++ t :: post) !! s = Some (primaryLogo t).
Proof.
  intros fbsTeams pre post t s Hs Hne Hp Hl Hpost Hin.
  assert (Ht : truthy (school t) = true) by (rewrite Hs; apply truthy_nonempty, Hne).
  assert (Hk : norm_of (school t) = norm s) by (rewrite Hs; reflexivity).
  assert (E : resolve_names (buildDirectory (pre ++ t :: post)) fbsTeams ∅ !! s
              = Some (primaryLogo t)).
  { rewrite resolve_names_lookup, decide_True by assumption. f_equal.
    unfold resolveLogo, find_hit, buildDirectory.
    rewrite <- Hk, bySchool_last; [|exact Ht|rewrite Hk; exact Hpost].
    simpl. rewrite Hl. reflexivity. }
  unfold buildTeamLogosMap. apply add_schools_keeps_logo; assumption.
Qed.

Lemma school_resolves_to_own_logo_witness :
  buildTeamLogosMap ["Rice"; "Miami"] ([team_rice_no_logo] ++ team_miami :: [])
    !! "Miami" = Some (primaryLogo team_miami).
Proof.
  apply (school_resolves_to_own_logo ["Rice"; "Miami"] [team_rice_no_logo] []
           team_miami "Miami").
  - reflexivity.
  - discriminate.
  - discriminate.
  - reflexivity.
  - intros t' Ht'. apply not_elem_of_nil in Ht'. contradiction.
  - right. left.
Defined.

(** X12. When every name is a string, [buildTeamLogosMap] raises no
    exception and returns the map of the string model.  It raises a
    [TypeError] exactly when some name is [undefined] or [null] while
    neither the school index nor the alternate-name index has an entry
    under the empty key. *)
Theorem logo_map_exception :
  forall (fbsTeams : list ostr) (teamsMeta : list team_meta),
    (forall names : list string,
       fbsTeams = map Str names ->
       buildTeamLogosMap_js fbsTeams teamsMeta
       = Some (buildTeamLogosMap names teamsMeta))
    /\ (buildTeamLogosMap_js fbsTeams teamsMeta = None <->
        (exists nm, nm ∈ fbsTeams /\ forall s, nm <> Str s)
        /\ bySchool (buildDirectory teamsMeta) !! "" = None
        /\ byAlt (buildDirectory teamsMeta) !! "" = None).
Proof.
  intros fbsTeams teamsMeta. split.
  - intros names ->. unfold buildTeamLogosMap_js.
    rewrite resolve_names_js_strings. reflexivity.
  - apply buildTeamLogosMap_js_None.
Qed.

Lemma logo_map_exception_witness :
  buildTeamLogosMap_js [Str "Rice"] [team_rice_no_logo]
  = Some (buildTeamLogosMap ["Rice"] [team_rice_no_logo])
  /\ buildTeamLogosMap_js [Str "Rice"; Undef] [team_rice_no_logo] = None.
Proof.
  split.
  - apply (proj1 (logo_map_exception [Str "Rice"] [team_rice_no_logo]) ["Rice"]).
    reflexivity.
  - apply (proj2 (logo_map_exception [Str "Rice"; Undef] [team_rice_no_logo])).
    split; [|split; reflexivity].
    exists Undef. split; [right; left|discriminate].
Defined.

(** ** [extractFbsTeams] *)

Lemma elem_of_set_add x y s : y ∈ set_add x s <-> y = x \/ y ∈ s.
Proof.
  unfold set_add. case_decide as Hx.
  - split; [auto|]. intros [->|H]; assumption.
  - rewrite elem_of_app, list_elem_of_singleton. tauto.
Qed.

Lemma NoDup_set_add x s : NoDup s -> NoDup (set_add x s).
Proof.
  intros H. unfold set_add. case_decide as Hx; [exact H|].
  apply NoDup_app. split; [exact H|]. split.
  - intros y Hy Hy'. apply list_elem_of_singleton in Hy'. subst y. contradiction.
  - apply NoDup_singleton.
Qed.

Lemma elem_of_add_fbs_teams g s x :
  x ∈ add_fbs_teams g s <-> x ∈ s \/ fbs_side g x.
Proof.
  unfold add_fbs_teams, fbs_side.
  destruct (is_fbs (homeClassification g)), (is_fbs (awayClassification g));
    rewrite ?elem_of_set_add; intuition congruence.
Qed.

Lemma NoDup_add_fbs_teams g s : NoDup s -> NoDup (add_fbs_teams g s).
Proof.
  intros H. unfold add_fbs_teams.
  destruct (is_fbs (homeClassification g)), (is_fbs (awayClassification g));
    auto using NoDup_set_add.
Qed.

Lemma add_all_fbs_teams_spec games : forall s,
  NoDup s ->
  NoDup (add_all_fbs_teams games s)
  /\ (forall x, x ∈ add_all_fbs_teams games s <->
        x ∈ s \/ exists g, g ∈ games /\ fbs_side g x)
  /\ exists rest, add_all_fbs_teams games s = s ++ rest.
Proof.
  induction games as [|g games IH]; intros s Hs; simpl.
  - split; [exact Hs|]. split; [|exists []; rewrite app_nil_r; reflexivity].
    intros x. split; [auto|]. intros [H|(g & Hg & _)]; [exact H|].
    apply not_elem_of_nil in Hg. contradiction.
  - destruct (IH (add_fbs_teams g s) (NoDup_add_fbs_teams g s Hs))
      as (Hn & Hm & rest & Hr).
    split; [exact Hn|]. split.
    + intros x. rewrite Hm, elem_of_add_fbs_teams. split.
      * intros [[H|H]|(g' & Hg' & H)]; [auto| |].
        -- right. exists g. split; [left|exact H].
        -- right. exists g'. split; [right; exact Hg'|exact H].
      * intros [H|(g' & [->|Hg']%elem_of_cons & H)]; [auto|auto|].
        right. exists g'. auto.
    + rewrite Hr. unfold add_fbs_teams, set_add.
      destruct (is_fbs (homeClassification g)), (is_fbs (awayClassification g));
        repeat case_decide; rewrite <- ?app_assoc; eauto.
Qed.

Example extract_schedule :
  extractFbsTeams schedule = [Str "Miami"; Str "Rice"; Str "Tulsa"].
Proof. vm_compute. reflexivity. Qed.

(** X13. [extractFbsTeams] lists every team that is on an 'fbs' side of
    some game, lists nothing else, and lists no team twice; without games
    the list is empty. *)
Theorem extractFbsTeams_spec : forall games : list classified_game,
  NoDup (extractFbsTeams games)
  /\ (forall x, x ∈ extractFbsTeams games <->
        exists g, g ∈ games /\ fbs_side g x)
  /\ extractFbsTeams [] = [].
Proof.
  intros games. unfold extractFbsTeams.
  destruct (add_all_fbs_teams_spec games [] (NoDup_nil_2 (A:=ostr))) as (Hn & Hm & _).
  split; [exact Hn|]. split; [|reflexivity].
  intros x. rewrite Hm. split; [|auto].
  intros [H|H]; [|exact H]. apply not_elem_of_nil in H. contradiction.
Qed.

Lemma resolve_name_js_key d nm (m m' : plain ostr) k :
  resolve_name_js d nm m = Some m' ->
  (to_string nm <> "__proto__" -> is_Some (m' !! to_string nm))
  /\ (is_Some (m !! k) -> is_Some (m' !! k)).
Proof.
  unfold resolve_name_js.
  destruct nm as [| |s];
    [destruct (hit_or _ _)|destruct (hit_or _ _)|];
    intros [= <-]; try discriminate;
    (split; [intros Hp; rewrite assign_lookup_eq by exact Hp; eauto
            |apply assign_keeps_any]).
Qed.

Lemma resolve_names_js_keys d names : forall (m m' : plain ostr),
  resolve_names_js d names m = Some m' ->
  (forall k, is_Some (m !! k) -> is_Some (m' !! k))
  /\ forall nm, nm ∈ names -> to_string nm <> "__proto__" ->
       is_Some (m' !! to_string nm).
Proof.
  induction names as [|n names IH]; intros m m' H; simpl in H.
  - injection H as <-. split; [auto|].
    intros nm Hnm. apply not_elem_of_nil in Hnm. contradiction.
  - destruct (resolve_name_js d n m) as [m1|] eqn:E; [|discriminate].
    destruct (IH _ _ H) as [Hk Hn]. split.
    + intros k Hk'. apply Hk. eapply (resolve_name_js_key d n m m1 k); eauto.
    + intros nm Hnm Hp. apply elem_of_cons in Hnm as [Hnm|Hnm]; [|auto].
      apply Hk. rewrite Hnm in *.
      apply (resolve_name_js_key d n m m1 "" E). exact Hp.
Qed.

(** X14. On the [/teams] route, when the logo map is built without an
    exception, every team that is on an 'fbs' side of a game and is not
    named [__proto__] has an entry (a logo or null) in it, under its
    name. *)
Theorem teams_route_covers_schedule :
  forall (games : list classified_game) (teamsMeta : list team_meta)
         (teamLogos : plain ostr) (g : classified_game) (x : ostr),
    teams_logos games teamsMeta = Some teamLogos ->
    g ∈ games -> fbs_side g x -> to_string x <> "__proto__" ->
    is_Some (teamLogos !! to_string x).
Proof.
  intros games teamsMeta teamLogos g x H Hg Hx Hp.
  unfold teams_logos, buildTeamLogosMap_js in H.
  destruct (resolve_names_js _ _ ∅) as [m|] eqn:E; [|discriminate].
  injection H as <-. apply add_schools_keeps.
  apply (resolve_names_js_keys _ _ _ _ E); [|exact Hp].
  unfold extractFbsTeams.
  destruct (add_all_fbs_teams_spec games [] (NoDup_nil_2 (A:=ostr))) as (_ & Hm & _).
  apply Hm. right. eauto.
Qed.

Lemma teams_route_covers_schedule_witness :
  is_Some (buildTeamLogosMap ["Miami"; "Rice"; "Tulsa"]
             [team_miami; team_rice_no_logo] !! "Tulsa").
Proof.
  apply (teams_route_covers_schedule schedule [team_miami; team_rice_no_logo] _
           (fbs_game "Tulsa" "Miami" (Str "fbs")) (Str "Tulsa")).
  - vm_compute. reflexivity.
  - right. right. left.
  - left. split; reflexivity.
  - discriminate.
Defined.

(** ** The routes *)

Lemma map_Str_to_string (l : list ostr) :
  Forall (fun o => exists s, o = Str s) l -> map Str (map to_string l) = l.
Proof.
  induction 1 as [|o l [s ->] _ IH]; simpl; [reflexivity|].
  rewrite IH. reflexivity.
Qed.

Lemma school_logos_strings teamsMeta :
  Forall (fun t => exists s, school t = Str s) teamsMeta ->
  school_logos teamsMeta
  = Some (buildTeamLogosMap (map to_string (map school teamsMeta)) teamsMeta).
Proof.
  intros H. unfold school_logos, buildTeamLogosMap_js.
  rewrite <- (map_Str_to_string (map school teamsMeta)) at 1
    by (apply Forall_map; exact H).
  rewrite resolve_names_js_strings. reflexivity.
Qed.

(** X28. On [/projections] and [/stats], when every team of the metadata
    has a string as its school name, the logo map is built without an
    exception, and it has an entry for the school name of every team
    that is not named [__proto__]. *)
Theorem school_logos_total :
  forall teamsMeta : list team_meta,
    Forall (fun t => exists s, school t = Str s) teamsMeta ->
    school_logos teamsMeta
    = Some (buildTeamLogosMap (map to_string (map school teamsMeta)) teamsMeta)
    /\ forall t, t ∈ teamsMeta -> school t <> Str "__proto__" ->
         is_Some (buildTeamLogosMap (map to_string (map school teamsMeta)) teamsMeta
                    !! to_string (school t)).
Proof.
  intros teamsMeta H. split; [apply school_logos_strings, H|].
  intros t Ht Hp. unfold buildTeamLogosMap. apply add_schools_keeps.
  assert (Hs : exists s, school t = Str s).
  { rewrite Forall_forall in H. apply H, Ht. }
  destruct Hs as [s Hs].
  rewrite resolve_names_lookup, decide_True; [eauto| |].
  - apply list_elem_of_fmap. exists (school t). split; [reflexivity|].
    apply list_elem_of_fmap. exists t. auto.
  - rewrite Hs. simpl. intros ->. apply Hp, Hs.
Qed.

Lemma school_logos_total_witness :
  school_logos [team_miami; team_rice_no_logo]
  = Some (buildTeamLogosMap ["Miami"; "Rice"] [team_miami; team_rice_no_logo]).
Proof.
  apply (proj1 (school_logos_total [team_miami; team_rice_no_logo]
                  ltac:(repeat constructor; eexists; reflexivity))).
Defined.

(** ** Game record aggregator *)

Lemma eqb_decide (a b : string) : String.eqb a b = bool_decide (a = b).
Proof.
  destruct (String.eqb_spec a b); symmetry;
    [apply bool_decide_eq_true_2 | apply bool_decide_eq_false_2]; assumption.
Qed.

(** The accessors of the code read what the specification says. *)

Lemma home_score_spec g :
  finite_number (home_score g) = spec_score (home_points g) (homePoints g).
Proof.
  unfold home_score, nullish, finite_number, spec_score.
  destruct (home_points g) as [| | |[]|]; reflexivity.
Qed.

Lemma away_score_spec g :
  finite_number (away_score g) = spec_score (away_points g) (awayPoints g).
Proof.
  unfold away_score, nullish, finite_number, spec_score.
  destruct (away_points g) as [| | |[]|]; reflexivity.
Qed.

Lemma or_else_spec a b : to_string (or_else a b) = spec_name a b.
Proof.
  unfold or_else, spec_name. destruct a as [| |[|c s]]; simpl; try reflexivity;
    destruct b; reflexivity.
Qed.

Lemma home_key_spec g : home_key g = spec_home g.
Proof. apply or_else_spec. Qed.

Lemma away_key_spec g : away_key g = spec_away g.
Proof. apply or_else_spec. Qed.

Lemma gt_spec hp ap : gt hp ap = if Qlt_le_dec ap hp then true else false.
Proof.
  unfold gt. destruct (Qlt_le_dec ap hp) as [H|H].
  - destruct (Qle_bool hp ap) eqn:E; [|reflexivity].
    apply Qle_bool_iff in E. exfalso. eapply Qlt_not_le; eauto.
  - apply Qle_bool_iff in H. rewrite H. reflexivity.
Qed.

Lemma lookup_ensure k m t :
  ensure k m !! t
  = if decide (k = t)
    then match m !! k with Some v => Some v | None => fresh k 0 0 end
    else m !! t.
Proof.
  unfold ensure, fresh. destruct (m !! k) as [r|] eqn:E.
  - case_decide; subst; congruence.
  - destruct (inherited k); [destruct (String.eqb k "__proto__")|].
    + case_decide; subst; congruence.
    + rewrite lookup_insert. case_decide; reflexivity.
    + rewrite lookup_insert. case_decide; reflexivity.
Qed.

Lemma bumped_0 v : bumped v 0 0 = v.
Proof. destruct v as [[w l]|]; simpl; rewrite ?Nat.add_0_r; reflexivity. Qed.

Lemma bumped_bumped v a b c d : bumped (bumped v a b) c d = bumped v (a + c) (b + d).
Proof. destruct v as [[w l]|]; simpl; [|reflexivity]. do 2 f_equal; lia. Qed.

Lemma fmap_fresh f t w l w' l' :
  (forall r, f (Rec r) = bumped (Rec r) w' l') -> f Builtin = Builtin ->
  f <$> fresh t w l = fresh t (w + w') (l + l').
Proof.
  intros Hr Hb. unfold fresh.
  destruct (inherited t); [destruct (String.eqb t "__proto__")|]; simpl;
    rewrite ?Hr, ?Hb; reflexivity.
Qed.

Lemma win_bumped v : win v = bumped v 1 0.
Proof.
  destruct v as [[w l]|]; simpl; [|reflexivity].
  do 2 f_equal; lia.
Qed.

Lemma loss_bumped v : loss v = bumped v 0 1.
Proof.
  destruct v as [[w l]|]; simpl; [|reflexivity].
  do 2 f_equal; lia.
Qed.

Lemma fmap_bumped_fresh t w l a b :
  (fun v => bumped v a b) <$> fresh t w l = fresh t (w + a) (l + b).
Proof.
  unfold fresh.
  destruct (inherited t); [destruct (String.eqb t "__proto__")|]; reflexivity.
Qed.

Lemma ensure_comm a h m : ensure a (ensure h m) = ensure h (ensure a m).
Proof.
  apply map_eq. intros t. rewrite !lookup_ensure.
  destruct (decide (a = t)) as [Ha|Ha], (decide (h = t)) as [Hh|Hh]; subst;
    rewrite ?decide_True by reflexivity;
    rewrite ?decide_False by (intros E; symmetry in E; contradiction);
    rewrite ?decide_False by assumption;
    reflexivity.
Qed.

(** What the updates for the winner [w] and the loser [l] do to one name. *)
Lemma win_loss_lookup w l m t :
  add_loss l (add_win w (ensure l (ensure w m))) !! t
  = match m !! t with
    | Some v => Some (bumped v (Nat.b2n (bool_decide (w = t)))
                               (Nat.b2n (bool_decide (l = t))))
    | None => if bool_decide (w = t) || bool_decide (l = t)
              then fresh t (Nat.b2n (bool_decide (w = t)))
                           (Nat.b2n (bool_decide (l = t)))
              else None
    end.
Proof.
  unfold add_loss, add_win.
  destruct (decide (w = t)) as [Hw|Hw], (decide (l = t)) as [Hl|Hl];
    rewrite ?(bool_decide_eq_true_2 _ Hw), ?(bool_decide_eq_true_2 _ Hl),
      ?(bool_decide_eq_false_2 _ Hw), ?(bool_decide_eq_false_2 _ Hl); simpl.
  - subst w l. rewrite !lookup_alter_eq, !lookup_ensure.
    rewrite !decide_True by reflexivity.
    destruct (m !! t) as [v|]; simpl.
    + rewrite win_bumped, loss_bumped, bumped_bumped. reflexivity.
    + unfold fresh. destruct (inherited t); [destruct (String.eqb t "__proto__")|];
        reflexivity.
  - subst w. rewrite lookup_alter_ne by exact Hl. rewrite lookup_alter_eq.
    rewrite lookup_ensure, decide_False by exact Hl.
    rewrite lookup_ensure, decide_True by reflexivity.
    destruct (m !! t) as [v|]; simpl.
    + rewrite win_bumped. reflexivity.
    + unfold fresh. destruct (inherited t); [destruct (String.eqb t "__proto__")|];
        reflexivity.
  - subst l. rewrite lookup_alter_eq. rewrite lookup_alter_ne by exact Hw.
    rewrite lookup_ensure, decide_True by reflexivity.
    rewrite lookup_ensure, decide_False by exact Hw.
    destruct (m !! t) as [v|]; simpl.
    + rewrite loss_bumped. reflexivity.
    + unfold fresh. destruct (inherited t); [destruct (String.eqb t "__proto__")|];
        reflexivity.
  - rewrite !lookup_alter_ne by assumption.
    rewrite !lookup_ensure, !decide_False by assumption.
    destruct (m !! t) as [v|]; [rewrite bumped_0|]; reflexivity.
Qed.

(** What one game does to the record of one team. *)
Lemma record_game_lookup g m t :
  record_game g m !! t =
    match m !! t with
    | Some v => Some (bumped v (Nat.b2n (is_win_of t g)) (Nat.b2n (is_loss_of t g)))
    | None => if plays_in t g
              then fresh t (Nat.b2n (is_win_of t g)) (Nat.b2n (is_loss_of t g))
              else None
    end.
Proof.
  unfold record_game, is_win_of, is_loss_of, plays_in, counted, home_wins.
  rewrite home_score_spec, away_score_spec, home_key_spec, away_key_spec.
  destruct (spec_score (home_points g) (homePoints g)) as [hp|];
    [destruct (spec_score (away_points g) (awayPoints g)) as [ap|]|].
  2,3: simpl; destruct (m !! t) as [v|]; [rewrite bumped_0|]; reflexivity.
  rewrite gt_spec, !eqb_decide. simpl.
  generalize (spec_home g) (spec_away g); intros h a.
  destruct (Qlt_le_dec ap hp).
  - rewrite win_loss_lookup. reflexivity.
  - rewrite ensure_comm, (win_loss_lookup a h).
    rewrite (orb_comm (bool_decide (a = t))). reflexivity.
Qed.

Lemma not_playing_no_win t g : plays_in t g = false -> is_win_of t g = false.
Proof.
  unfold plays_in, is_win_of.
  destruct (counted g), (home_wins g), (String.eqb (spec_home g) t),
    (String.eqb (spec_away g) t); simpl; congruence.
Qed.

Lemma not_playing_no_loss t g : plays_in t g = false -> is_loss_of t g = false.
Proof.
  unfold plays_in, is_loss_of.
  destruct (counted g), (home_wins g), (String.eqb (spec_home g) t),
    (String.eqb (spec_away g) t); simpl; congruence.
Qed.

Lemma fresh_bumped t w l a b v :
  fresh t w l = Some v -> Some (bumped v a b) = fresh t (w + a) (l + b).
Proof.
  unfold fresh. destruct (inherited t); [destruct (String.eqb t "__proto__")|];
    intros [= <-]; reflexivity.
Qed.

Lemma fresh_None t w l w' l' : fresh t w l = None -> fresh t w' l' = None.
Proof.
  unfold fresh. destruct (inherited t); [destruct (String.eqb t "__proto__")|];
    congruence.
Qed.

Lemma record_games_lookup games : forall m t,
  record_games games m !! t =
    match m !! t with
    | Some v => Some (bumped v (count_if (is_win_of t) games)
                               (count_if (is_loss_of t) games))
    | None => if (0 <? count_if (plays_in t) games)%nat
              then fresh t (count_if (is_win_of t) games)
                           (count_if (is_loss_of t) games)
              else None
    end.
Proof.
  induction games as [|g games IH]; intros m t; simpl.
  - destruct (m !! t) as [v|]; [rewrite bumped_0|]; reflexivity.
  - rewrite IH, record_game_lookup.
    destruct (m !! t) as [v|]; simpl.
    + rewrite bumped_bumped. unfold Nat.b2n. reflexivity.
    + destruct (plays_in t g) eqn:E; simpl.
      * destruct (fresh t _ _) as [v|] eqn:F.
        -- eapply fresh_bumped in F. rewrite F. unfold Nat.b2n. reflexivity.
        -- rewrite (fresh_None _ _ _ (count_if (is_win_of t) games)
                      (count_if (is_loss_of t) games) F).
           rewrite (fresh_None _ _ _
                      ((if is_win_of t g then 1 else 0) + count_if (is_win_of t) games)
                      ((if is_loss_of t g then 1 else 0) + count_if (is_loss_of t) games) F).
           destruct (0 <? _)%nat; reflexivity.
      * rewrite (not_playing_no_win _ _ E), (not_playing_no_loss _ _ E). reflexivity.
Qed.








(** Totals over the mapping under the three updates of the loop. *)

















(** ** Completed-game counts *)

Lemma home_norm_spec g : norm_of (or_else (home_team g) (homeTeam g)) = home_norm g.
Proof.
  unfold home_norm, norm_of, or_else.
  destruct (home_team g) as [| |[|c s]]; simpl; try reflexivity;
    destruct (homeTeam g); reflexivity.
Qed.

Lemma away_norm_spec g : norm_of (or_else (away_team g) (awayTeam g)) = away_norm g.
Proof.
  unfold away_norm, norm_of, or_else.
  destruct (away_team g) as [| |[|c s]]; simpl; try reflexivity;
    destruct (awayTeam g); reflexivity.
Qed.

Lemma bump_counted_as j (m : gmap string count) k n :
  m !! k = counted_as k n ->
  bump j m !! k = counted_as k (n + Nat.b2n (bool_decide (j = k))).
Proof.
  intros H. unfold bump. destruct (decide (j = k)) as [->|Hne].
  - rewrite bool_decide_eq_true_2 by reflexivity. rewrite H.
    revert H. unfold counted_as. simpl.
    replace (n + 1 =? 0)%nat with false by (symmetry; apply Nat.eqb_neq; lia).
    destruct n as [|n]; simpl;
      (destruct (inherited k); [destruct (String.eqb k "__proto__")|]);
      intros H; rewrite ?lookup_insert_eq; auto.
  - rewrite bool_decide_eq_false_2 by exact Hne. simpl. rewrite Nat.add_0_r.
    destruct (m !! j) as [[c|]|];
      [| |destruct (inherited j); [destruct (String.eqb j "__proto__")|]];
      rewrite ?lookup_insert_ne by exact Hne; exact H.
Qed.

Lemma count_game_counted_as g (m : gmap string count) k n :
  m !! k = counted_as k n ->
  count_game g m !! k = counted_as k (n + appearances k g).
Proof.
  intros H. unfold count_game, appearances, counted.
  rewrite home_score_spec, away_score_spec, home_norm_spec, away_norm_spec.
  destruct (spec_score (home_points g) (homePoints g)),
    (spec_score (away_points g) (awayPoints g));
    rewrite ?Nat.add_0_r; try exact H.
  rewrite !eqb_decide, Nat.add_assoc.
  apply bump_counted_as, bump_counted_as, H.
Qed.

Lemma count_games_counted_as games : forall (m : gmap string count) k n,
  m !! k = counted_as k n ->
  count_games games m !! k = counted_as k (n + sum_of (appearances k) games).
Proof.
  induction games as [|g games IH]; intros m k n H; simpl.
  - rewrite Nat.add_0_r. exact H.
  - rewrite Nat.add_assoc. apply IH, count_game_counted_as, H.
Qed.

Lemma count_games_lookup games k :
  count_games games ∅ !! k = counted_as k (sum_of (appearances k) games).
Proof. apply (count_games_counted_as games ∅ k 0). reflexivity. Qed.

Lemma games_played_counted games k :
  games_played (count_games games ∅) k
  = if inherited k then None
    else Some (Nat.max 1 (sum_of (appearances k) games)).
Proof.
  unfold games_played. rewrite count_games_lookup. unfold counted_as.
  destruct (Nat.eqb_spec (sum_of (appearances k) games) 0) as [->|Hn].
  - destruct (inherited k); reflexivity.
  - destruct (inherited k); [destruct (String.eqb k "__proto__")|]; reflexivity.
Qed.

Lemma games_played_floor (cc : gmap string count) k gp :
  games_played cc k = Some gp -> 1 <= gp.
Proof.
  unfold games_played. destruct (cc !! k) as [[n|]|].
  - intros [= <-]. lia.
  - discriminate.
  - destruct (inherited k); [discriminate|]. intros [= <-]. lia.
Qed.

(** X15. The completed-game count of a key that is not a property name
    of [Object.prototype] is the number of times the key takes part, as
    home or as away team, in a game with two finite scores; a key that
    takes part in none has no count.  The divisor of the averages is
    that number, or 1 when it is 0.  Under the name of a property of
    [Object.prototype] the count is a string, or is missing for
    [__proto__], and the divisor is [NaN]. *)
Theorem completed_counts_spec : forall (games : list game) (k : string),
  count_games games ∅ !! k
  = (if Nat.eqb (sum_of (appearances k) games) 0 then None
     else if inherited k
          then if String.eqb k "__proto__" then None else Some Garbage
          else Some (Count (sum_of (appearances k) games)))
  /\ games_played (count_games games ∅) k
     = (if inherited k then None
        else Some (Nat.max 1 (sum_of (appearances k) games))).
Proof.
  intros games k. split; [apply count_games_lookup|apply games_played_counted].
Qed.

Lemma key_norm (o : ostr) (t : string) :
  to_string o = t -> t <> "undefined" -> t <> "null" -> norm_of o = norm t.
Proof.
  destruct o as [| |s]; simpl; intros <- H1 H2;
    [destruct H1; reflexivity | destruct H2; reflexivity | reflexivity].
Qed.

Lemma spec_name_norm a b t :
  spec_name a b = t -> t <> "undefined" -> t <> "null" ->
  norm (match a with
        | Str (String c s) => String c s
        | _ => match b with Str s => s | _ => "" end
        end) = norm t.
Proof.
  unfold spec_name. destruct a as [| |[|c s]]; try (intros <-; reflexivity);
    destruct b; intros <- H1 H2; try reflexivity;
    try (destruct H1; reflexivity); destruct H2; reflexivity.
Qed.

Lemma played_le_appearances t g :
  t <> "undefined" -> t <> "null" ->
  Nat.b2n (is_win_of t g) + Nat.b2n (is_loss_of t g) <= appearances (norm t) g.
Proof.
  intros H1 H2. unfold is_win_of, is_loss_of, appearances.
  destruct (counted g); simpl; [|lia].
  assert (Hh : String.eqb (spec_home g) t = true ->
               String.eqb (home_norm g) (norm t) = true).
  { intros E%String.eqb_eq. apply String.eqb_eq.
    unfold home_norm. apply spec_name_norm; assumption. }
  assert (Ha : String.eqb (spec_away g) t = true ->
               String.eqb (away_norm g) (norm t) = true).
  { intros E%String.eqb_eq. apply String.eqb_eq.
    unfold away_norm. apply spec_name_norm; assumption. }
  destruct (String.eqb (spec_home g) t), (String.eqb (spec_away g) t);
    rewrite ?Hh, ?Ha by reflexivity;
    destruct (home_wins g); simpl;
    destruct (String.eqb (home_norm g) (norm t)),
             (String.eqb (away_norm g) (norm t)); simpl; lia.
Qed.

Lemma count_if_sum {A : Type} (p : A -> bool) (l : list A) :
  count_if p l = sum_of (fun x => Nat.b2n (p x)) l.
Proof. induction l as [|x l IH]; simpl; [reflexivity|]. rewrite IH. reflexivity. Qed.

Lemma sum_of_le {A : Type} (f g h : A -> nat) (l : list A) :
  (forall x, f x + g x <= h x) -> sum_of f l + sum_of g l <= sum_of h l.
Proof.
  intros H. induction l as [|x l IH]; simpl; [lia|]. specialize (H x). lia.
Qed.

Lemma record_of_games games t r :
  aggregateRecords games !! t = Some (Rec r) ->
  wins r = count_if (is_win_of t) games /\ losses r = count_if (is_loss_of t) games.
Proof.
  unfold aggregateRecords. rewrite record_games_lookup, lookup_empty.
  destruct (0 <? count_if (plays_in t) games)%nat; [|discriminate].
  unfold fresh. destruct (inherited t); [destruct (String.eqb t "__proto__")|];
    try discriminate.
  intros [= <-]. auto.
Qed.

(** X16. The divisor of a team's averages is never smaller than the
    number of games in its win/loss record: for a team name other than
    the strings "undefined" and "null", the completed-game count of its
    key is at least its wins plus its losses (teams whose names share a
    key are counted together), and so is the divisor when the key is not
    a property name of [Object.prototype]. *)
Theorem divisor_covers_record :
  forall (games : list game) (t : string) (r : record),
    t <> "undefined" -> t <> "null" ->
    aggregateRecords games !! t = Some (Rec r) ->
    wins r + losses r <= sum_of (appearances (norm t)) games
    /\ (inherited (norm t) = false ->
        exists gp, games_played (count_games games ∅) (norm t) = Some gp
                   /\ wins r + losses r <= gp).
Proof.
  intros games t r H1 H2 Hr.
  apply record_of_games in Hr as [-> ->].
  assert (E : count_if (is_win_of t) games + count_if (is_loss_of t) games
              <= sum_of (appearances (norm t)) games).
  { rewrite !count_if_sum. apply sum_of_le.
    intros g. apply played_le_appearances; assumption. }
  split; [exact E|].
  intros Hi. rewrite games_played_counted, Hi.
  eexists. split; [reflexivity|]. lia.
Qed.

Lemma divisor_covers_record_witness :
  1 + 1 <= sum_of (appearances (norm "A")) [game_AB; game_tie]
  /\ (inherited (norm "A") = false ->
      exists gp, games_played (count_games [game_AB; game_tie] ∅) (norm "A") = Some gp
                 /\ 1 + 1 <= gp).
Proof.
  apply (divisor_covers_record [game_AB; game_tie] "A" {| wins := 1; losses := 1 |}).
  - discriminate.
  - discriminate.
  - vm_compute. reflexivity.
Defined.

(** ** Ratings *)

Section RatingFacts.

Variable fdiv : Q -> Q -> Q.

Lemma rate_teams_lookup br ts : forall (m : gmap string Q) k,
  k <> "__proto__" ->
  rate_teams fdiv br ts m !! k
  = if decide (k ∈ map to_string ts) then Some (rating_value fdiv br k)
    else m !! k.
Proof.
  induction ts as [|t ts IH]; intros m k Hk; cbn [rate_teams map].
  - destruct (decide (k ∈ [])) as [H|H]; [|reflexivity].
    apply not_elem_of_nil in H. contradiction.
  - rewrite IH by exact Hk. unfold rate_team.
    destruct (decide (k ∈ to_string t :: map to_string ts)) as [H|H].
    + apply elem_of_cons in H as [H|H].
      * subst k. destruct (decide (to_string t ∈ map to_string ts)); [reflexivity|].
        destruct (String.eqb_spec (to_string t) "__proto__"); [contradiction|].
        rewrite lookup_insert_eq. reflexivity.
      * rewrite decide_True by exact H. reflexivity.
    + apply not_elem_of_cons in H as [Hne Hnin].
      rewrite decide_False by exact Hnin.
      destruct (String.eqb (to_string t) "__proto__"); [reflexivity|].
      rewrite lookup_insert_ne by congruence. reflexivity.
Qed.

Lemma rate_teams_proto br ts : forall (m : gmap string Q),
  m !! "__proto__" = None -> rate_teams fdiv br ts m !! "__proto__" = None.
Proof.
  induction ts as [|t ts IH]; intros m H; cbn [rate_teams]; [exact H|].
  apply IH. unfold rate_team.
  destruct (String.eqb_spec (to_string t) "__proto__") as [E|E]; [exact H|].
  rewrite lookup_insert_ne by exact E. exact H.
Qed.

Lemma no_play_no_record t games :
  count_if (plays_in t) games = 0 ->
  count_if (is_win_of t) games = 0 /\ count_if (is_loss_of t) games = 0.
Proof.
  induction games as [|g games IH]; simpl; [auto|].
  destruct (plays_in t g) eqn:E; [discriminate|]. simpl. intros H.
  rewrite (not_playing_no_win _ _ E), (not_playing_no_loss _ _ E).
  simpl. apply IH, H.
Qed.

Lemma rating_value_games games k :
  rating_value fdiv (aggregateRecords games) k
  = if inherited k then 0%Q
    else if Nat.eqb (count_if (is_win_of k) games + count_if (is_loss_of k) games) 0
    then 0%Q
    else fdiv (num (count_if (is_win_of k) games))
              (num (count_if (is_win_of k) games + count_if (is_loss_of k) games)).
Proof.
  unfold rating_value, record_or_default, aggregateRecords.
  rewrite record_games_lookup, lookup_empty. unfold fresh.
  destruct (Nat.ltb_spec 0 (count_if (plays_in k) games)) as [H|H]; simpl.
  - destruct (inherited k); [destruct (String.eqb k "__proto__"); reflexivity|].
    simpl.
    destruct (Nat.eqb_spec (count_if (is_win_of k) games
                            + count_if (is_loss_of k) games) 0); [reflexivity|].
    rewrite Nat.max_r by lia. reflexivity.
  - destruct (inherited k); [reflexivity|].
    destruct (no_play_no_record k games) as [-> ->]; [lia|]. reflexivity.
Qed.

(** X17. When [buildTeamLogosMap] raises an exception the route renders
    no rating at all.  Otherwise the teams of the metadata list, and only
    they, are rated, except that the name [__proto__] gets no rating.
    The rating is 0 when the team has no game with two finite scores or
    its name is a property name of [Object.prototype], and otherwise its
    wins divided by its wins plus losses (the floor of 1 in the divisor
    never applies). *)
Theorem ratings_spec :
  forall (games : list game) (teamsMeta : list team_meta) (k : string),
    ratings fdiv games teamsMeta !! k
    = match school_logos teamsMeta with
      | None => None
      | Some _ =>
          if decide (k ∈ map to_string (map school teamsMeta))
          then if inherited k
               then if String.eqb k "__proto__" then None else Some 0%Q
               else Some
                      (if Nat.eqb (count_if (is_win_of k) games
                                   + count_if (is_loss_of k) games) 0
                       then 0%Q
                       else fdiv (num (count_if (is_win_of k) games))
                                 (num (count_if (is_win_of k) games
                                       + count_if (is_loss_of k) games)))
          else None
      end.
Proof.
  intros games teamsMeta k. unfold ratings.
  destruct (school_logos teamsMeta); [|apply lookup_empty].
  destruct (String.eqb_spec k "__proto__") as [->|Hk].
  - rewrite rate_teams_proto by apply lookup_empty.
    destruct (decide _); reflexivity.
  - rewrite rate_teams_lookup by exact Hk.
    rewrite rating_value_games, lookup_empty.
    destruct (decide _); [|reflexivity].
    destruct (inherited k); reflexivity.
Qed.

(** X18. If division yields a value between 0 and 1 whenever the
    dividend is at most the divisor, as the division of doubles does,
    then every rating lies between 0 and 1. *)
Theorem ratings_bounded :
  forall (games : list game) (teamsMeta : list team_meta) (k : string) (v : Q),
    (forall a b : nat, a <= b -> 1 <= b ->
       (0 <= fdiv (num a) (num b))%Q /\ (fdiv (num a) (num b) <= 1)%Q) ->
    ratings fdiv games teamsMeta !! k = Some v ->
    (0 <= v)%Q /\ (v <= 1)%Q.
Proof.
  intros games teamsMeta k v Hdiv H.
  unfold ratings in H.
  destruct (school_logos teamsMeta); [|rewrite lookup_empty in H; discriminate].
  destruct (String.eqb_spec k "__proto__") as [->|Hk].
  - rewrite rate_teams_proto in H by apply lookup_empty. discriminate.
  - rewrite rate_teams_lookup, rating_value_games in H by exact Hk.
    case_decide; [|rewrite lookup_empty in H; discriminate].
    injection H as <-.
    destruct (inherited k); [split; [apply Qle_refl|discriminate]|].
    destruct (Nat.eqb_spec (count_if (is_win_of k) games
                            + count_if (is_loss_of k) games) 0).
    + split; [apply Qle_refl|discriminate].
    + apply Hdiv; lia.
Qed.

End RatingFacts.

Lemma Qdiv_nat_bounds (a b : nat) :
  a <= b -> 1 <= b ->
  (0 <= Qdiv (num a) (num b))%Q /\ (Qdiv (num a) (num b) <= 1)%Q.
Proof.
  intros Hab Hb. unfold num.
  assert (Hpos : (0 < inject_Z (Z.of_nat b))%Q).
  { change 0%Q with (inject_Z 0). rewrite <- Zlt_Qlt. lia. }
  split.
  - apply Qle_shift_div_l; [exact Hpos|].
    rewrite Qmult_0_l. change 0%Q with (inject_Z 0). rewrite <- Zle_Qle. lia.
  - apply Qle_shift_div_r; [exact Hpos|].
    rewrite Qmult_1_l. rewrite <- Zle_Qle. lia.
Qed.

Lemma ratings_bounded_witness :
  (0 <= 1 / 2)%Q /\ (1 / 2 <= 1)%Q.
Proof.
  apply (ratings_bounded Qdiv [game_AB; game_tie]
           [team_named "A" None; team_named "B" None] "A" (Qdiv 1 2)).
  - apply Qdiv_nat_bounds.
  - vm_compute. reflexivity.
Defined.

(** ** Statistics averager *)

Section StatsFacts.

Variable fdiv : Q -> Q -> Q.
Variable StringToNumber : string -> jsnum.

Local Abbreviation add_stat' := (add_stat fdiv StringToNumber).
Local Abbreviation add_stats' := (add_stats fdiv StringToNumber).
Local Abbreviation add_row' := (add_row fdiv StringToNumber).
Local Abbreviation add_rows' := (add_rows fdiv StringToNumber).
Local Abbreviation rows_map := (gmap string (gmap string jsnum)).

(** A value missing under all three names converts to NaN. *)
Lemma missing_value_not_finite s :
  s_value s = VUndef -> s_stat s = VUndef -> statValue s = VUndef ->
  stat_number StringToNumber s = None.
Proof. unfold stat_number. intros -> -> ->. reflexivity. Qed.

(** A value that is [null] under all three names converts to 0. *)
Lemma null_value_is_zero s :
  s_value s = VNull -> s_stat s = VNull \/ s_stat s = VUndef -> statValue s = VNull ->
  stat_number StringToNumber s = Some 0%Q.
Proof. unfold stat_number. intros -> [-> | ->] ->; reflexivity. Qed.

(** C3 at the failing input.  The row of team "A" carries a finite value,
    a [null] value and a missing value; no game was completed.  The
    missing value is skipped, the finite value is divided by 1, and the
    [null] value is not skipped: [Number(null)] is 0, which is finite, and
    the stat is reported with the average [0 / 1]. *)
Theorem null_stat_value_is_averaged :
  averageStats fdiv StringToNumber (Some [row_A]) ∅ (fbsSet_of [team_named "A" None])
  = Done {[ "A" := {[ "rushingYards" := Fin (fdiv 300 1);
                      "sacks" := Fin (fdiv 0 1) ]} ]}.
Proof. vm_compute. reflexivity. Qed.

Lemma add_stat_lookup gp s (acc : gmap string jsnum) n :
  add_stat' gp s acc !! n
  = match stat_number StringToNumber s with
    | Some val =>
        if truthy (stat_key s)
           && negb (String.eqb (to_string (stat_key s)) "__proto__")
           && bool_decide (to_string (stat_key s) = n)
        then Some (quotient fdiv val gp)
        else acc !! n
    | None => acc !! n
    end.
Proof.
  unfold add_stat. destruct (stat_number StringToNumber s); [|reflexivity].
  destruct (truthy (stat_key s) && negb _); simpl; [|reflexivity].
  rewrite lookup_insert. case_bool_decide; case_decide; congruence.
Qed.



Lemma add_stats_other gp ss : forall (acc : gmap string jsnum) n,
  (forall s, s ∈ ss ->
     stat_number StringToNumber s = None \/ truthy (stat_key s) = false
     \/ to_string (stat_key s) <> n) ->
  add_stats' gp ss acc !! n = acc !! n.
Proof.
  induction ss as [|s ss IH]; intros acc n H; simpl; [reflexivity|].
  rewrite IH by (intros s' Hs'; apply H; right; exact Hs').
  rewrite add_stat_lookup.
  destruct (H s) as [E|[E|E]]; [left|rewrite E|rewrite E|].
  - reflexivity.
  - destruct (stat_number StringToNumber s); reflexivity.
  - destruct (stat_number StringToNumber s); [|reflexivity].
    rewrite bool_decide_eq_false_2 by exact E.
    rewrite andb_false_r. reflexivity.
Qed.

(** X19. Within one row the last finite value of a stat name wins: a
    stat with a name other than [__proto__] and a finite value is
    stored, divided by the games played, unless a later stat of the row
    has the same name and a finite value; stats with other names, without
    a name or without a finite value do not touch it.  A stat named
    [__proto__] is never stored. *)
Theorem row_last_value_wins :
  forall (gp : option nat) (pre post : list stat) (s : stat) (val : Q)
         (acc : gmap string jsnum),
    (stat_number StringToNumber s = Some val ->
     truthy (stat_key s) = true ->
     to_string (stat_key s) <> "__proto__" ->
     (forall s', s' ∈ post ->
        stat_number StringToNumber s' = None \/ truthy (stat_key s') = false
        \/ to_string (stat_key s') <> to_string (stat_key s)) ->
     add_stats' gp (pre ++ s :: post) acc !! to_string (stat_key s)
     = Some (quotient fdiv val gp))
    /\ add_stats' gp (pre ++ s :: post) acc !! "__proto__" = acc !! "__proto__".
Proof.
  intros gp pre post s val acc. split.
  - intros Hv Hk Hp Hpost.
    revert acc. induction pre as [|p pre IH]; intros acc; simpl.
    + rewrite add_stats_other by exact Hpost.
      rewrite add_stat_lookup, Hv, Hk. simpl.
      destruct (String.eqb_spec (to_string (stat_key s)) "__proto__");
        [contradiction|].
      simpl. rewrite bool_decide_eq_true_2; reflexivity.
    + apply IH.
  - generalize (pre ++ s :: post). intros ss. revert acc.
    induction ss as [|x ss IH]; intros acc; simpl; [reflexivity|].
    rewrite IH, add_stat_lookup.
    destruct (stat_number StringToNumber x); [|reflexivity].
    destruct (truthy (stat_key x)); simpl; [|reflexivity].
    destruct (String.eqb_spec (to_string (stat_key x)) "__proto__") as [E|E];
      simpl; [reflexivity|].
    rewrite bool_decide_eq_false_2 by exact E. reflexivity.
Qed.

Lemma add_stats_from gp ss : forall (acc : gmap string jsnum) n v,
  add_stats' gp ss acc !! n = Some v ->
  acc !! n = Some v
  \/ exists s val, s ∈ ss /\ stat_number StringToNumber s = Some val
       /\ truthy (stat_key s) = true /\ to_string (stat_key s) = n
       /\ v = quotient fdiv val gp.
Proof.
  induction ss as [|s ss IH]; intros acc n v H; simpl in H; [auto|].
  apply IH in H as [H|(s' & val & Hs' & H)].
  - rewrite add_stat_lookup in H.
    destruct (stat_number StringToNumber s) as [val|] eqn:Hv; [|auto].
    destruct (truthy (stat_key s)) eqn:Hk; simpl in H; [|auto].
    destruct (negb _); simpl in H; [|auto].
    case_bool_decide as Hn; [|auto].
    injection H as <-. right. exists s, val.
    split; [left|]. auto.
  - right. exists s', val. split; [right; exact Hs'|exact H].
Qed.

(** The loop makes own entries under names that are not inherited only. *)
Lemma add_row_Done cc fbs row (m m1 : rows_map) :
  (forall k, is_Some (m !! k) -> inherited k = false) ->
  add_row' cc fbs row m = Done m1 ->
  writes_builtin StringToNumber fbs row = false
  /\ (forall k, is_Some (m1 !! k) -> inherited k = false)
  /\ forall k,
       m1 !! k
       = if bool_decide (norm_of (row_team row) ∈ fbs)
            && bool_decide (to_string (row_team row) = k)
            && negb (inherited k)
         then Some (add_stats' (games_played cc (norm_of (row_team row)))
                      (default [] (stats row)) (default ∅ (m !! k)))
         else m !! k.
Proof.
  intros Inv. unfold add_row, writes_builtin. case_decide as Hf.
  - rewrite (bool_decide_eq_true_2 _ Hf). simpl.
    destruct (m !! to_string (row_team row)) as [acc|] eqn:E.
    + assert (Hi : inherited (to_string (row_team row)) = false) by (apply Inv; eauto).
      intros [= <-]. rewrite Hi. split; [reflexivity|]. split.
      * intros k [x Hx]. rewrite lookup_insert in Hx.
        case_decide; [subst; exact Hi|apply Inv; eauto].
      * intros k. rewrite lookup_insert.
        case_bool_decide as Hk; case_decide; try congruence; [|reflexivity].
        subst k. rewrite Hi, E. reflexivity.
    + destruct (inherited (to_string (row_team row))) eqn:Hi.
      * destruct (existsb _ _); [discriminate|]. intros [= <-].
        split; [reflexivity|]. split; [exact Inv|].
        intros k. case_bool_decide as Hk; [|reflexivity].
        subst k. rewrite Hi. reflexivity.
      * intros [= <-]. split; [reflexivity|]. split.
        -- intros k [x Hx]. rewrite lookup_insert in Hx.
           case_decide; [subst; exact Hi|apply Inv; eauto].
        -- intros k. rewrite lookup_insert.
           case_bool_decide as Hk; case_decide; try congruence; [|reflexivity].
           subst k. rewrite Hi, E. reflexivity.
  - rewrite (bool_decide_eq_false_2 _ Hf). simpl. intros [= <-].
    split; [reflexivity|]. split; [exact Inv|]. reflexivity.
Qed.






Lemma add_rows_from cc fbs all rows :
  forall (m m' : rows_map),
    (forall k, is_Some (m !! k) -> inherited k = false) ->
    (forall row, row ∈ rows -> row ∈ all) ->
    (forall k acc n v, m !! k = Some acc -> acc !! n = Some v ->
       average_of fdiv StringToNumber cc fbs all k n v) ->
    add_rows' cc fbs rows m = Done m' ->
    forall k acc n v,
      m' !! k = Some acc -> acc !! n = Some v ->
      average_of fdiv StringToNumber cc fbs all k n v.
Proof.
  induction rows as [|row rows IH]; intros m m' Inv Hsub Hm H k acc n v Hk Hn;
    simpl in H.
  - injection H as <-. eapply Hm; eauto.
  - destruct (add_row' cc fbs row m) as [m1| |] eqn:E; try discriminate.
    destruct (add_row_Done cc fbs row m m1 Inv E) as (_ & Inv1 & L).
    eapply (IH m1 m' Inv1); [| |exact H|exact Hk|exact Hn].
    + intros r Hr. apply Hsub. right. exact Hr.
    + clear H Hk Hn k acc n v. intros k acc n v H Hn.
      rewrite L in H.
      destruct (bool_decide (norm_of (row_team row) ∈ fbs)) eqn:E1;
        [|eapply Hm; eauto].
      destruct (bool_decide (to_string (row_team row) = k)) eqn:E2;
        [|eapply Hm; eauto].
      destruct (inherited k) eqn:E3; [eapply Hm; eauto|].
      apply bool_decide_eq_true in E1, E2. simpl in H. injection H as <-.
      apply add_stats_from in Hn as [Hn|(s & val & Hs & Hv & Hk & Hkn & ->)].
      * destruct (m !! k) as [acc0|] eqn:Hk; simpl in Hn.
        -- eapply Hm; eauto.
        -- rewrite lookup_empty in Hn. discriminate.
      * exists row, s, val.
        split; [apply Hsub; left|].
        repeat (split; [assumption|]). reflexivity.
Qed.

(** X21. When the loop over the rows runs to its end, every average
    that is reported comes from the data: it is the finite value of a
    named stat of a row of that team, a row whose key is in the FBS set,
    divided by the games played of that key; that divisor is at least 1
    when it is a number, so nothing is ever divided by zero. *)
Theorem averages_from_rows :
  forall (statsRows : option (list stat_row)) (completedCounts : gmap string count)
         (fbsSet : gset string) (m : gmap string (gmap string jsnum))
         (k n : string) (acc : gmap string jsnum) (v : jsnum),
    averageStats fdiv StringToNumber statsRows completedCounts fbsSet = Done m ->
    m !! k = Some acc ->
    acc !! n = Some v ->
    average_of fdiv StringToNumber completedCounts fbsSet
      (default [] statsRows) k n v
    /\ forall key gp, games_played completedCounts key = Some gp -> 1 <= gp.
Proof.
  intros statsRows cc fbs m k n acc v H Hk Hn. unfold averageStats in H.
  split; [|intros key gp; apply games_played_floor].
  refine (add_rows_from cc fbs (default [] statsRows) (default [] statsRows)
            ∅ m _ _ _ H k acc n v Hk Hn).
  - intros k' [x Hx]. rewrite lookup_empty in Hx. discriminate.
  - auto.
  - intros k' acc' n' v' H'. rewrite lookup_empty in H'. discriminate.
Qed.





(** X29. The [/stats] route answers 500 when [buildTeamLogosMap] raises
    an exception.  Otherwise, when the loop over the rows runs to its
    end, every reported average is the finite value of a named stat of a
    row whose team key is the key of a school of the metadata, divided by
    the number of times that key takes part in a game with two finite
    scores, or by 1 when there is no such game; the divisor is [NaN]
    when the key is a property name of [Object.prototype]. *)
Theorem stats_route_averages :
  forall (games : list game) (teamsMeta : list team_meta)
         (statsRows : option (list stat_row)),
    (school_logos teamsMeta = None ->
     stats_rows fdiv StringToNumber games teamsMeta statsRows = Thrown)
    /\ forall (m : gmap string (gmap string jsnum)) (k n : string)
              (acc : gmap string jsnum) (v : jsnum),
         stats_rows fdiv StringToNumber games teamsMeta statsRows = Done m ->
         m !! k = Some acc ->
         acc !! n = Some v ->
         exists row s val t,
           row ∈ default [] statsRows /\ to_string (row_team row) = k
           /\ t ∈ teamsMeta /\ norm_of (school t) = norm_of (row_team row)
           /\ s ∈ default [] (stats row)
           /\ stat_number StringToNumber s = Some val
           /\ to_string (stat_key s) = n
           /\ v = quotient fdiv val
                    (if inherited (norm_of (row_team row)) then None
                     else Some (Nat.max 1
                            (sum_of (appearances (norm_of (row_team row))) games))).
Proof.
  intros games teamsMeta statsRows. unfold stats_rows. split.
  - intros ->. reflexivity.
  - intros m k n acc v H Hk Hn.
    destruct (school_logos teamsMeta); [|discriminate].
    unfold averageStats in H.
    assert (A : average_of fdiv StringToNumber (count_games games ∅)
                  (fbsSet_of teamsMeta) (default [] statsRows) k n v).
    { refine (add_rows_from _ _ (default [] statsRows) (default [] statsRows)
                ∅ m _ _ _ H k acc n v Hk Hn).
      - intros k' [x Hx]. rewrite lookup_empty in Hx. discriminate.
      - auto.
      - intros k' acc' n' v' H'. rewrite lookup_empty in H'. discriminate. }
    destruct A as (row & s & val & Hr & Hkr & Hf & Hs & Hv & _ & Hkn & ->).
    unfold fbsSet_of in Hf. apply elem_of_list_to_set in Hf.
    apply list_elem_of_fmap in Hf as (t & Ht & Hin).
    exists row, s, val, t.
    repeat (split; [first [assumption | symmetry; assumption]|]).
    rewrite games_played_counted. reflexivity.
Qed.

End StatsFacts.

Lemma row_last_value_wins_witness :
  add_stats Qdiv (fun _ => NaN) (Some 2)
    ([stat_named "sacks" (VNum (Fin 4))]
     ++ stat_named "sacks" (VNum (Fin 6)) :: [stat_named "sacks" VUndef]) ∅
    !! "sacks" = Some (Fin (Qdiv 6 (inject_Z (Z.of_nat 2)))).
Proof.
  apply (proj1 (row_last_value_wins Qdiv (fun _ => NaN) (Some 2)
           [stat_named "sacks" (VNum (Fin 4))] [stat_named "sacks" VUndef]
           (stat_named "sacks" (VNum (Fin 6))) 6%Q ∅)).
  - reflexivity.
  - reflexivity.
  - discriminate.
  - intros s' Hs'. apply list_elem_of_singleton in Hs'. subst s'. left. reflexivity.
Defined.


Lemma averages_from_rows_witness :
  average_of Qdiv (fun _ => NaN) ∅ (fbsSet_of [team_named "A" None])
    [row_A] "A" "rushingYards" (Fin (Qdiv 300 1)).
Proof.
  apply (averages_from_rows Qdiv (fun _ => NaN) (Some [row_A]) ∅
           (fbsSet_of [team_named "A" None])
           {[ "A" := {[ "rushingYards" := Fin (Qdiv 300 1);
                        "sacks" := Fin (Qdiv 0 1) ]} ]}
           "A" "rushingYards"
           {[ "rushingYards" := Fin (Qdiv 300 1); "sacks" := Fin (Qdiv 0 1) ]}).
  - vm_compute. reflexivity.
  - vm_compute. reflexivity.
  - vm_compute. reflexivity.
Defined.


Lemma stats_route_averages_witness :
  exists row s val t,
    row ∈ default [] (Some [row_A]) /\ to_string (row_team row) = "A"
    /\ t ∈ [team_named "A" None] /\ norm_of (school t) = norm_of (row_team row)
    /\ s ∈ default [] (stats row)
    /\ stat_number (fun _ => NaN) s = Some val
    /\ to_string (stat_key s) = "rushingYards"
    /\ Fin (Qdiv 300 2)
       = quotient Qdiv val
           (if inherited (norm_of (row_team row)) then None
            else Some (Nat.max 1 (sum_of (appearances (norm_of (row_team row)))
                                    [game_AB; game_tie]))).
Proof.
  apply (proj2 (stats_route_averages Qdiv (fun _ => NaN) [game_AB; game_tie]
                  [team_named "A" None] (Some [row_A]))
           {[ "A" := {[ "rushingYards" := Fin (Qdiv 300 2);
                        "sacks" := Fin (Qdiv 0 2) ]} ]}
           "A" "rushingYards"
           {[ "rushingYards" := Fin (Qdiv 300 2); "sacks" := Fin (Qdiv 0 2) ]}).
  - vm_compute. reflexivity.
  - vm_compute. reflexivity.
  - vm_compute. reflexivity.
Defined.
(** ** Poll ranking extractor *)

Example extract_all_with_gap :
  extractPolls rankings_with_gap (Some "all") = [bucket_week1].
Proof. vm_compute. reflexivity. Qed.

Example extract_latest_with_gap :
  extractPolls rankings_with_gap (Some "latest") = [bucket_week1].
Proof. vm_compute. reflexivity. Qed.

Example extract_default_mode :
  extractPolls rankings_with_gap None = [bucket_week1].
Proof. vm_compute. reflexivity. Qed.

Example extract_missing_week_first :
  map b_week (extractPolls rankings_missing_week (Some "ALL")) = [0%Z; 1%Z].
Proof. vm_compute. reflexivity. Qed.

Example extract_not_an_array : extractPolls None (Some "all") = [].
Proof. reflexivity. Qed.

Section SortBy.
Context {A : Type} (key : A -> Z).

Lemma insert_by_perm x l : Permutation (insert_by key x l) (x :: l).
Proof.
  induction l as [|y l IH]; simpl; [reflexivity|].
  destruct (key x <=? key y)%Z; [reflexivity|].
  rewrite IH. apply perm_swap.
Qed.

Lemma sort_by_perm l : Permutation (sort_by key l) l.
Proof.
  induction l as [|x l IH]; simpl; [reflexivity|].
  rewrite insert_by_perm, IH. reflexivity.
Qed.

Lemma insert_by_sorted x l :
  StronglySorted (key_le key) l -> StronglySorted (key_le key) (insert_by key x l).
Proof.
  induction 1 as [|y l Hs IH Hall]; simpl.
  - repeat constructor.
  - destruct (Z.leb_spec (key x) (key y)) as [Hle|Hgt].
    + constructor; [constructor; assumption|].
      constructor; [exact Hle|].
      eapply Forall_impl; [exact Hall|].
      intros z Hz. unfold key_le in *. lia.
    + constructor; [exact IH|].
      rewrite insert_by_perm. constructor; [|exact Hall].
      unfold key_le. lia.
Qed.

Lemma sort_by_sorted l : StronglySorted (key_le key) (sort_by key l).
Proof.
  induction l as [|x l IH]; simpl; [constructor|].
  apply insert_by_sorted, IH.
Qed.

(** Stability: entries with the same key keep their relative order. *)
Lemma insert_by_stable k x l :
  StronglySorted (key_le key) l ->
  filter (fun a => key a = k) (insert_by key x l)
  = filter (fun a => key a = k) (x :: l).
Proof.
  induction 1 as [|y l Hs IH Hall]; simpl; [reflexivity|].
  destruct (Z.leb_spec (key x) (key y)) as [Hle|Hgt]; [reflexivity|].
  rewrite !filter_cons. rewrite filter_cons in IH.
  destruct (decide (key y = k)) as [Hy|Hy], (decide (key x = k)) as [Hx|Hx];
    rewrite ?IH; try reflexivity.
  lia.
Qed.

Lemma sort_by_stable k l :
  filter (fun a => key a = k) (sort_by key l) = filter (fun a => key a = k) l.
Proof.
  induction l as [|x l IH]; simpl; [reflexivity|].
  rewrite insert_by_stable by apply sort_by_sorted.
  rewrite !filter_cons, IH. reflexivity.
Qed.
End SortBy.

(** The loop collects the buckets of the entries before the stop, and
    [latest] is the last of them. *)
Lemma walk_spec es : forall weeks latest,
  walk es weeks latest
  = (weeks ++ map bucket_of (before_stop es),
     match last (map bucket_of (before_stop es)) with
     | Some b => Some b
     | None => latest
     end).
Proof.
  induction es as [|e es IH]; intros weeks latest; simpl.
  - rewrite app_nil_r. reflexivity.
  - destruct (both_absent e); simpl.
    + rewrite app_nil_r. reflexivity.
    + rewrite IH, <- app_assoc. simpl. f_equal.
      rewrite last_cons. destruct (last _); reflexivity.
Qed.

Lemma collect_spec rankings :
  collect rankings
  = (map bucket_of (before_stop (sorted_entries rankings)),
     last (map bucket_of (before_stop (sorted_entries rankings)))).
Proof.
  unfold collect. rewrite walk_spec. simpl.
  destruct (last _); reflexivity.
Qed.

(** [before_stop] is the longest prefix without a stopping entry. *)
Lemma before_stop_split es :
  exists rest,
    es = before_stop es ++ rest
    /\ Forall (fun e => both_absent e = false) (before_stop es)
    /\ (rest = [] \/ exists e rest', rest = e :: rest' /\ both_absent e = true).
Proof.
  induction es as [|e es (rest & E & Hall & Hrest)]; simpl.
  - exists []. repeat split; auto.
  - destruct (both_absent e) eqn:Hb.
    + exists (e :: es). repeat split; eauto.
    + exists rest. simpl. rewrite <- E. repeat split; auto.
Qed.

Lemma before_stop_sorted es :
  StronglySorted (key_le week_of) es ->
  StronglySorted (key_le week_of) (before_stop es).
Proof.
  induction 1 as [|e es Hs IH Hall]; simpl; [constructor|].
  destruct (both_absent e); constructor; [exact IH|].
  destruct (before_stop_split es) as (rest & E & _).
  rewrite E in Hall. apply Forall_app in Hall. tauto.
Qed.

Lemma find_poll_None n ps :
  find_poll (has_name n) ps = None <->
  forall p, Some p ∈ ps -> poll_name p <> Str n.
Proof.
  induction ps as [|q ps IH]; simpl.
  - split; [|reflexivity]. intros _ p Hp. apply not_elem_of_nil in Hp. contradiction.
  - destruct (has_name n q) eqn:Hq.
    + destruct q as [q|]; [|discriminate]. split; [discriminate|].
      intros H. exfalso. apply (H q); [left|].
      simpl in Hq. destruct (poll_name q) as [| |s]; try discriminate.
      apply String.eqb_eq in Hq. congruence.
    + rewrite IH. split.
      * intros H p [E|Hp]%elem_of_cons; [|apply H, Hp].
        subst q. simpl in Hq. intros Hn. rewrite Hn, String.eqb_refl in Hq.
        discriminate.
      * intros H p Hp. apply H. right. exact Hp.
Qed.

(** Both tracked polls are absent exactly when no poll of the entry
    carries one of the two names. *)
Lemma both_absent_iff e :
  both_absent e = true <->
  forall p, Some p ∈ default [] (polls e) ->
    poll_name p <> Str "AP Top 25" /\ poll_name p <> Str "Coaches Poll".
Proof.
  unfold both_absent, ap_of, coaches_of, isAP, isCoaches.
  pose proof (find_poll_None "AP Top 25" (default [] (polls e))) as Ha.
  pose proof (find_poll_None "Coaches Poll" (default [] (polls e))) as Hc.
  destruct (find_poll (has_name "AP Top 25") _).
  - split; [discriminate|]. intros H.
    assert (Some p = None) as Hn; [|discriminate].
    apply Ha. intros q Hq. apply H, Hq.
  - destruct (find_poll (has_name "Coaches Poll") _).
    + split; [discriminate|]. intros H.
      assert (Some p = None) as Hn; [|discriminate].
      apply Hc. intros q Hq. apply H, Hq.
    + split; [|reflexivity]. intros _ q Hq. split.
      * apply (proj1 Ha); [reflexivity|exact Hq].
      * apply (proj1 Hc); [reflexivity|exact Hq].
Qed.

Lemma extract_all rankings :
  extractPolls rankings (Some "all")
  = map bucket_of (before_stop (sorted_entries rankings)).
Proof. unfold extractPolls. rewrite collect_spec. reflexivity. Qed.

Lemma extract_not_all rankings query_mode :
  mode_of query_mode <> "all" ->
  extractPolls rankings query_mode
  = match last (map bucket_of (before_stop (sorted_entries rankings))) with
    | Some b => [b]
    | None => []
    end.
Proof.
  intros H. unfold extractPolls. rewrite collect_spec.
  destruct (String.eqb_spec (mode_of query_mode) "all"); [contradiction|reflexivity].
Qed.

(** C2. The poll extractor walks the entries in ascending week order (a
    missing week counts as 0) and stops at the first entry in which both
    tracked polls, matched by exact name, are absent: the buckets of mode
    "all" are those of the entries before it, and no entry at or after it
    contributes.  With weeks 1 (both polls), 2 (neither) and 3 (AP only)
    the output of mode "all" is the bucket of week 1 alone. *)
Theorem polls_stop_at_first_gap : forall rankings : option (list ranking_entry),
  Permutation (sorted_entries rankings) (default [] rankings)
  /\ StronglySorted (key_le week_of) (sorted_entries rankings)
  /\ (exists pre rest,
        sorted_entries rankings = pre ++ rest
        /\ Forall (fun e => both_absent e = false) pre
        /\ (rest = [] \/ exists e rest', rest = e :: rest' /\ both_absent e = true)
        /\ extractPolls rankings (Some "all") = map bucket_of pre)
  /\ (forall e, both_absent e = true <->
        forall p, Some p ∈ default [] (polls e) ->
          poll_name p <> Str "AP Top 25" /\ poll_name p <> Str "Coaches Poll")
  /\ (forall e, week_of e = match week e with Some w => w | None => 0%Z end)
  /\ extractPolls rankings_in_order (Some "all") = [bucket_week1]
  /\ extractPolls rankings_with_gap (Some "all") = [bucket_week1].
Proof.
  intros rankings. split; [|split; [|split; [|split; [|split; [|split]]]]].
  - apply sort_by_perm.
  - apply sort_by_sorted.
  - destruct (before_stop_split (sorted_entries rankings)) as (rest & E & Hall & Hrest).
    exists (before_stop (sorted_entries rankings)), rest.
    repeat split; auto. apply extract_all.
  - apply both_absent_iff.
  - intros e. reflexivity.
  - vm_compute. reflexivity.
  - vm_compute. reflexivity.
Qed.

Lemma map_sorted_weeks es :
  StronglySorted (key_le week_of) es ->
  StronglySorted Z.le (map b_week (map bucket_of es)).
Proof.
  induction 1 as [|e es Hs IH Hall]; simpl; constructor; [exact IH|].
  rewrite Forall_map, Forall_map. exact Hall.
Qed.

(** C7. With mode "latest" the poll extractor yields the one-element
    sequence holding the last bucket collected before the stop, or the
    empty sequence when none was collected; with mode "all" it yields
    every collected bucket, in ascending week order. *)
Theorem extract_latest_and_all : forall rankings : option (list ranking_entry),
  extractPolls rankings (Some "all") = fst (collect rankings)
  /\ extractPolls rankings (Some "all")
     = map bucket_of (before_stop (sorted_entries rankings))
  /\ StronglySorted Z.le (map b_week (extractPolls rankings (Some "all")))
  /\ extractPolls rankings (Some "latest")
     = match last (extractPolls rankings (Some "all")) with
       | Some b => [b]
       | None => []
       end
  /\ extractPolls rankings_in_order (Some "latest") = [bucket_week1].
Proof.
  intros rankings. rewrite extract_all.
  split; [|split; [|split; [|split]]].
  - rewrite collect_spec. reflexivity.
  - reflexivity.
  - apply map_sorted_weeks, before_stop_sorted, sort_by_sorted.
  - apply extract_not_all. vm_compute. discriminate.
  - vm_compute. reflexivity.
Qed.




(** ** Poll buckets *)





(** ** Modes *)

Lemma toLowerCase_empty s : toLowerCase s = "" <-> s = "".
Proof. destruct s; simpl; split; intros H; try reflexivity; discriminate. Qed.

Lemma mode_of_lower m : mode_of (Some (toLowerCase m)) = mode_of (Some m).
Proof.
  unfold mode_of.
  destruct (String.eqb_spec m "") as [->|Hm]; [reflexivity|].
  destruct (String.eqb_spec (toLowerCase m) "") as [E|_].
  - apply (proj1 (toLowerCase_empty m)) in E. contradiction.
  - apply toLowerCase_idem.
Qed.

(** X24. The mode is matched without regard to case, and a missing or
    empty mode means "latest". *)
Theorem mode_case_insensitive :
  forall (rankings : option (list ranking_entry)) (m : string),
    extractPolls rankings (Some (toLowerCase m)) = extractPolls rankings (Some m)
    /\ extractPolls rankings None = extractPolls rankings (Some "latest")
    /\ extractPolls rankings (Some "") = extractPolls rankings (Some "latest").
Proof.
  intros rankings m. unfold extractPolls. rewrite mode_of_lower.
  repeat split; reflexivity.
Qed.

Lemma before_stop_length es : List.length (before_stop es) <= List.length es.
Proof.
  induction es as [|e es IH]; simpl; [lia|].
  destruct (both_absent e); simpl; lia.
Qed.

Lemma last_suffix {A : Type} (l : list A) b : last l = Some b -> [b] `suffix_of` l.
Proof.
  intros H. apply last_Some in H as [l' ->]. exists l'. reflexivity.
Qed.

Lemma rendered_weeks_suffix rankings query_mode :
  extractPolls rankings query_mode
    `suffix_of` map bucket_of (before_stop (sorted_entries rankings)).
Proof.
  destruct (String.eqb_spec (mode_of query_mode) "all") as [E|E].
  - unfold extractPolls. rewrite collect_spec, E. reflexivity.
  - rewrite (extract_not_all rankings query_mode E).
    destruct (last _) as [b|] eqn:Hl; [apply last_suffix, Hl|apply suffix_nil].
Qed.

(** X25. Whatever the mode, the weeks that are rendered are a final
    segment of all collected weeks; there are at most as many of them as
    the payload has entries, and at most one unless the mode is "all". *)
Theorem rendered_weeks_bounded :
  forall (rankings : option (list ranking_entry)) (query_mode : option string),
    extractPolls rankings query_mode `suffix_of` extractPolls rankings (Some "all")
    /\ List.length (extractPolls rankings query_mode) <= List.length (default [] rankings)
    /\ (mode_of query_mode <> "all" ->
        List.length (extractPolls rankings query_mode) <= 1).
Proof.
  intros rankings query_mode. rewrite extract_all.
  assert (L : List.length (map bucket_of (before_stop (sorted_entries rankings)))
              <= List.length (default [] rankings)).
  { rewrite length_map. etransitivity; [apply before_stop_length|].
    unfold sorted_entries.
    rewrite (Permutation_length (sort_by_perm week_of (default [] rankings))).
    reflexivity. }
  destruct (String.eqb_spec (mode_of query_mode) "all") as [E|E].
  - assert (X : extractPolls rankings query_mode
                = map bucket_of (before_stop (sorted_entries rankings))).
    { unfold extractPolls. rewrite collect_spec, E. reflexivity. }
    rewrite X. split; [reflexivity|]. split; [exact L|].
    intros H. contradiction.
  - rewrite (extract_not_all rankings query_mode E).
    destruct (last _) as [b|] eqn:Hl.
    + split; [apply last_suffix, Hl|]. split; [|simpl; lia].
      apply last_Some in Hl as [l' Hl]. rewrite Hl, length_app in L.
      simpl in *. lia.
    + split; [apply suffix_nil|]. simpl. split; [lia|lia].
Qed.

Lemma before_stop_all es :
  Forall (fun e => both_absent e = false) es -> before_stop es = es.
Proof.
  induction 1 as [|e es He _ IH]; simpl; [reflexivity|].
  rewrite He, IH. reflexivity.
Qed.

(** X26. When every entry of the payload carries at least one of the
    two tracked polls, nothing is cut off: mode "all" yields one bucket
    per entry, in ascending week order. *)
Theorem no_gap_keeps_every_week :
  forall rankings : list ranking_entry,
    Forall (fun e => both_absent e = false) rankings ->
    extractPolls (Some rankings) (Some "all")
    = map bucket_of (sort_by week_of rankings)
    /\ Permutation (map b_week (extractPolls (Some rankings) (Some "all")))
         (map week_of rankings).
Proof.
  intros rankings H. rewrite extract_all. unfold sorted_entries. simpl.
  rewrite before_stop_all.
  - split; [reflexivity|]. rewrite map_map. simpl.
    apply Permutation_map, sort_by_perm.
  - eapply Permutation_Forall; [|exact H].
    symmetry. apply sort_by_perm.
Qed.

Lemma no_gap_keeps_every_week_witness :
  Permutation
    (map b_week (extractPolls rankings_missing_week (Some "all")))
    (map week_of (default [] rankings_missing_week)).
Proof.
  apply (proj2 (no_gap_keeps_every_week
                  [ {| week := Some 1%Z; polls := Some [Some ap_poll] |};
                    {| week := None; polls := Some [Some coaches_poll] |} ]
                  ltac:(repeat constructor))).
Defined.

Lemma before_stop_elem es e :
  e ∈ before_stop es -> e ∈ es /\ both_absent e = false.
Proof.
  induction es as [|x es IH]; simpl; [intros H; apply not_elem_of_nil in H; contradiction|].
  destruct (both_absent x) eqn:Hx; [intros H; apply not_elem_of_nil in H; contradiction|].
  intros [->|H]%elem_of_cons.
  - split; [left|exact Hx].
  - destruct (IH H). split; [right; assumption|assumption].
Qed.

(** X27. Every bucket that is rendered, in any mode, is the bucket of
    an entry of the payload that carries at least one of the two tracked
    polls: no bucket is made for an entry without them. *)
Theorem rendered_buckets_from_entries :
  forall (rankings : option (list ranking_entry)) (query_mode : option string)
         (b : bucket),
    b ∈ extractPolls rankings query_mode ->
    exists e, e ∈ default [] rankings /\ both_absent e = false /\ b = bucket_of e.
Proof.
  intros rankings query_mode b Hb.
  destruct (rendered_weeks_suffix rankings query_mode) as [k Hk].
  assert (Hall : b ∈ map bucket_of (before_stop (sorted_entries rankings))).
  { rewrite Hk. apply elem_of_app. right. exact Hb. }
  apply list_elem_of_fmap in Hall as (e & -> & He).
  apply before_stop_elem in He as [He Ha].
  exists e. split; [|auto].
  unfold sorted_entries in He.
  rewrite (sort_by_perm week_of (default [] rankings)) in He. exact He.
Qed.

Lemma rendered_buckets_from_entries_witness :
  exists e, e ∈ default [] rankings_in_order
            /\ both_absent e = false /\ bucket_week1 = bucket_of e.
Proof.
  apply (rendered_buckets_from_entries rankings_in_order (Some "latest") bucket_week1).
  vm_compute. left.
Defined.

